(** * Generalised Levenshtein distance: a model of [levenshtein.py]

    The development embeds the four functions of [levenshtein.py]
    ([lev], [dynprog], [explain_dynprog], [levenshtein]) and proves the
    properties its specification states about them.

    Numbers.  The cost functions return integers, modelled by [Z].  The
    cost matrix is an array of 64-bit floats, filled from cumulative sums
    that NumPy runs in 64-bit integers, and the trace matrix an array of
    integers.  [dynprog] is given in two readings: with exact arithmetic
    ([dynprog]), and with the wrap-around of the 64-bit integers and the
    rounding of the floats written out ([dynprog_np]).  The two agree when
    the costs are small enough for every number formed to be exact (lemma
    [dynprog_np_exact]); a property that holds only while the numbers are
    exact is stated for [dynprog_np] under that condition.  Costs that are
    not integers, NaN and infinities are outside the model.

    Arrays.  A 2-D numpy array is a list of rows.  Reading or writing outside
    the array raises [IndexError], which the model makes explicit with a
    small error monad.  Indices are naturals: every index the program forms
    is non-negative, so numpy's wrap-around of negative indices never
    applies. *)

From Stdlib Require Import ZArith Lia Ascii.
From stdpp Require Import base list strings.
From Equations Require Import Equations.

(** ** Errors *)

Inductive error : Type :=
  | IndexError       (* an index outside a list or an array *)
  | RecursionError.  (* the interpreter's recursion limit is exceeded *)

Inductive result (T : Type) : Type :=
  | Ok (v : T)
  | Err (e : error).
Arguments Ok {T} v.
Arguments Err {T} e.

Definition bind {T U : Type} (c : result T) (k : T -> result U) : result U :=
  match c with
  | Ok v => k v
  | Err e => Err e
  end.

Notation "'let*' x ':=' c 'in' k" := (bind c (fun x => k))
  (at level 10, x pattern, c at level 100, k at level 200).

(** ** Lists and arrays *)

(** [l[i]] for a non-negative [i]. *)
Definition index {T : Type} (l : list T) (i : nat) : result T :=
  match l !! i with
  | Some v => Ok v
  | None => Err IndexError
  end.

Abbreviation matrix := (list (list Z)).

(** [np.zeros((r, c))] *)
Definition zeros (r c : nat) : matrix := replicate r (replicate c 0%Z).

(** [M[i, j]] *)
Definition mget (M : matrix) (i j : nat) : result Z :=
  let* row := index M i in index row j.

(** [M[i, j] = v] *)
Definition mset (M : matrix) (i j : nat) (v : Z) : result matrix :=
  let* row := index M i in
  if decide (j < length row) then Ok (<[i := <[j := v]> row]> M)
  else Err IndexError.

(** [for k in l: s = body(k, s)] *)
Fixpoint for_each {S : Type} (l : list nat) (body : nat -> S -> result S) (s : S)
  : result S :=
  match l with
  | [] => Ok s
  | k :: l' => let* s' := body k s in for_each l' body s'
  end.

(** [for k in range(a, b)] *)
Definition for_range {S : Type} (a b : nat) (body : nat -> S -> result S) (s : S)
  : result S :=
  for_each (seq a (b - a)) body s.

(** [M[i:, j] = vals], one cell per value; in the program the slice and
    [vals] always have the same length. *)
Fixpoint set_col (M : matrix) (j i : nat) (vals : list Z) : result matrix :=
  match vals with
  | [] => Ok M
  | v :: vals' => let* M' := mset M i j v in set_col M' j (S i) vals'
  end.

(** [M[i, j:] = vals] *)
Fixpoint set_row (M : matrix) (i j : nat) (vals : list Z) : result matrix :=
  match vals with
  | [] => Ok M
  | v :: vals' => let* M' := mset M i j v in set_row M' i (S j) vals'
  end.

(** [M[i:, j] = v] and [M[i, j:] = v]: the scalar is broadcast over the slice. *)
Definition fill_col (M : matrix) (j i : nat) (v : Z) : result matrix :=
  set_col M j i (replicate (length M - i) v).

Definition fill_row (M : matrix) (i j : nat) (v : Z) : result matrix :=
  let* row := index M i in
  set_row M i j (replicate (length row - j) v).

(** [np.cumsum], in exact arithmetic; [np_cumsum] below is the sum in 64-bit
    integers. *)
Fixpoint cumsum_from (acc : Z) (l : list Z) : list Z :=
  match l with
  | [] => []
  | v :: l' => (acc + v)%Z :: cumsum_from (acc + v)%Z l'
  end.

Definition cumsum (l : list Z) : list Z := cumsum_from 0%Z l.

(** Python's [sum] *)
Definition sum (l : list Z) : Z := fold_left Z.add l 0%Z.

(** [np.argmin]: the index of the first occurrence of the minimum. *)
Fixpoint argmin_from (best : Z) (bi i : nat) (l : list Z) : nat :=
  match l with
  | [] => bi
  | v :: l' =>
      if (v <? best)%Z then argmin_from v i (S i) l'
      else argmin_from best bi (S i) l'
  end.

Definition argmin (l : list Z) : nat :=
  match l with
  | [] => 0
  | v :: l' => argmin_from v 0 1 l'
  end.

(** Python's [min] of three numbers: the first of the smallest. *)
Definition min3 (a b c : Z) : Z := Z.min (Z.min a b) c.

(** ** Edit operation codes *)

Inductive op_name : Type := op_match | op_insert | op_delete.

Definition dict_op (o : op_name) : Z :=
  match o with
  | op_match => 0
  | op_insert => 1
  | op_delete => 2
  end%Z.

Section Levenshtein.

Context {A : Type} `{EqDecision A}.

(** ** Cost models *)

Record CostModel : Type := mkCostModel {
  insert_cost : A -> Z;
  delete_cost : A -> Z;
  match_cost : A -> A -> Z
}.

(** The default arguments of [lev] and [dynprog]. *)
Definition default_model : CostModel :=
  {| insert_cost := fun _ => 1%Z;
     delete_cost := fun _ => 2%Z;
     match_cost := fun cx cy => if decide (cx = cy) then 0%Z else 4%Z |}.

(** The costs [levenshtein] has built in. *)
Definition unit_model : CostModel :=
  {| insert_cost := fun _ => 1%Z;
     delete_cost := fun _ => 1%Z;
     match_cost := fun cx cy => if decide (cx = cy) then 0%Z else 1%Z |}.

(** ** [dynprog] *)

(** The body of the inner loop, at cell [(ix, iy)], in exact arithmetic;
    [dynprog_np_cell] below is the same on floats. *)
Definition dynprog_cell (cm : CostModel) (x y : list A) (ix iy : nat)
    (MP : matrix * matrix) : result (matrix * matrix) :=
  let '(M, P) := MP in
  let* m := mget M (ix - 1) (iy - 1) in
  let* cx := index x (ix - 1) in
  let* cy := index y (iy - 1) in
  let* i := mget M ix (iy - 1) in
  let* cy' := index y (iy - 1) in
  let* d := mget M (ix - 1) iy in
  let* cx' := index x (ix - 1) in
  let L := [ (m + match_cost cm cx cy)%Z;
             (i + insert_cost cm cy')%Z;
             (d + delete_cost cm cx')%Z ] in
  let i_min := argmin L in
  let* P' := mset P ix iy (Z.of_nat i_min) in
  let* v := index L i_min in
  let* M' := mset M ix iy v in
  Ok (M', P').

Definition dynprog (cm : CostModel) (x y : list A) : result (matrix * matrix) :=
  let nx := length x in
  let ny := length y in
  let M := zeros (nx + 1) (ny + 1) in
  let P := zeros (nx + 1) (ny + 1) in
  let* M := set_col M 0 1 (cumsum (map (delete_cost cm) x)) in
  let* P := fill_col P 0 1 (dict_op op_delete) in
  let* M := set_row M 0 1 (cumsum (map (insert_cost cm) y)) in
  let* P := fill_row P 0 1 (dict_op op_insert) in
  for_range 1 (nx + 1)
    (fun ix => for_range 1 (ny + 1) (dynprog_cell cm x y ix))
    (M, P).

(** ** [explain_dynprog] *)

(** The loops of [explain_dynprog] append one item per edit operation to a
    list.  [mk_match], [mk_insert] and [mk_delete] build the item; the program
    builds strings ([explain_dynprog] below), the edit script keeps the
    elements ([edit_script] below). *)
Section Backtrack.

Context {T : Type}.
Context (mk_match : A -> A -> T) (mk_insert : A -> T) (mk_delete : A -> T).
Context (x y : list A) (P : matrix).

(** Where the walk goes from a cell: [ix -= 1; iy -= 1], [iy -= 1] or
    [ix -= 1]. *)
Inductive move : Type := Diag | Left | Up.

(** One iteration of the first [while] loop at [(ix, iy) = (S i, S j)]: the
    branch taken and the item appended. *)
Definition backtrack_step (i j : nat) : result (move * T) :=
  let* p := mget P (S i) (S j) in
  if decide (p = 0%Z) then
    let* cx := index x i in
    let* cy := index y j in
    Ok (Diag, mk_match cx cy)
  else if decide (p = 1%Z) then
    let* cy := index y j in
    Ok (Left, mk_insert cy)
  else
    let* cx := index x i in
    Ok (Up, mk_delete cx).

(** [while ix > 0 and iy > 0: ...] *)
Equations backtrack (ix iy : nat) (L : list T) : result (nat * nat * list T)
  by wf (ix + iy) lt :=
  backtrack (S i) (S j) L with backtrack_step i j := {
    | Err e => Err e
    | Ok (Diag, t) => backtrack i j (L ++ [t])
    | Ok (Left, t) => backtrack (S i) j (L ++ [t])
    | Ok (Up, t) => backtrack i (S j) (L ++ [t]) };
  backtrack ix iy L := Ok (ix, iy, L).
Next Obligation. lia. Qed.
Next Obligation. lia. Qed.

(** [while ix > 0: L.append('delete ' + str(x[ix - 1])); ix -= 1] *)
Fixpoint drain_delete (ix : nat) (L : list T) : result (list T) :=
  match ix with
  | 0 => Ok L
  | S i => let* cx := index x i in drain_delete i (L ++ [mk_delete cx])
  end.

(** [while iy > 0: L.append('insert ' + str(y[iy - 1])); iy -= 1] *)
Fixpoint drain_insert (iy : nat) (L : list T) : result (list T) :=
  match iy with
  | 0 => Ok L
  | S j => let* cy := index y j in drain_insert j (L ++ [mk_insert cy])
  end.

Definition explain : result (list T) :=
  let nx := length x in
  let ny := length y in
  let* (ix, iy, L) := backtrack nx ny [] in
  let* L := drain_delete ix L in
  let* L := drain_insert iy L in
  Ok (rev L).

End Backtrack.

(** The program's [explain_dynprog]; [str] is Python's [str] on the elements.
    [M] is a parameter the function never reads. *)
Definition explain_dynprog (str : A -> string) (x y : list A) (M P : matrix)
  : result (list string) :=
  explain
    (fun cx cy => (" match " +:+ str cx +:+ " and " +:+ str cy +:+ " ")%string)
    (fun cy => ("insert " +:+ str cy)%string)
    (fun cx => ("delete " +:+ str cx)%string)
    x y P.

(** The same walk, keeping the elements instead of printing them. *)
Inductive EditOp : Type :=
  | Match (cx cy : A)
  | Insert (cy : A)
  | Delete (cx : A).

Definition edit_script (x y : list A) (M P : matrix) : result (list EditOp) :=
  explain Match Insert Delete x y P.

(** ** [lev] *)

(** [a[:-1]] is [removelast a]; [a[-1]] raises [IndexError] on an empty list. *)
Definition last_elem (a : list A) : result A :=
  match last a with
  | Some v => Ok v
  | None => Err IndexError
  end.

(** [depth] is the number of frames left before the interpreter gives up.
    The recursive calls pass no cost function, so they run with the default
    ones. *)
Fixpoint lev (depth : nat) (cm : CostModel) (a b : list A) : result Z :=
  match depth with
  | 0 => Err RecursionError
  | S depth' =>
      if decide (a <> []) then Ok (sum (map (insert_cost cm) b))
      else if decide (b <> []) then Ok (sum (map (delete_cost cm) a))
      else
        let* r1 := lev depth' default_model (removelast a) (removelast b) in
        let* a1 := last_elem a in
        let* b1 := last_elem b in
        let* r2 := lev depth' default_model a (removelast b) in
        let* b2 := last_elem b in
        let* r3 := lev depth' default_model (removelast a) b in
        let* a3 := last_elem a in
        Ok (min3 (r1 + match_cost cm a1 b1)
                 (r2 + insert_cost cm b2)
                 (r3 + delete_cost cm a3))%Z
  end.

(** ** [levenshtein] *)

(** The body of the inner loop.  The function also prints the matrix, which
    the model leaves out. *)
Definition levenshtein_cell (seq1 seq2 : list A) (x y : nat) (m : matrix)
  : result matrix :=
  let* c1 := index seq1 (x - 1) in
  let* c2 := index seq2 (y - 1) in
  if decide (c1 = c2) then
    let* u := mget m (x - 1) y in
    let* d := mget m (x - 1) (y - 1) in
    let* l := mget m x (y - 1) in
    mset m x y (min3 (u + 1) d (l + 1))%Z
  else
    let* u := mget m (x - 1) y in
    let* d := mget m (x - 1) (y - 1) in
    let* l := mget m x (y - 1) in
    mset m x y (min3 (u + 1) (d + 1) (l + 1))%Z.

Definition levenshtein (seq1 seq2 : list A) : result Z :=
  let size_x := length seq1 + 1 in
  let size_y := length seq2 + 1 in
  let m := zeros size_x size_y in
  let* m := for_range 0 size_x (fun x m => mset m x 0 (Z.of_nat x)) m in
  let* m := for_range 0 size_y (fun y m => mset m 0 y (Z.of_nat y)) m in
  let* m := for_range 1 size_x
              (fun x => for_range 1 size_y (levenshtein_cell seq1 seq2 x)) m in
  mget m (size_x - 1) (size_y - 1).

(** The final cell [M[nx, ny]] of the cost matrix, which the docstring of
    [dynprog] calls the cost of editing [x] into [y]. *)
Definition edit_distance (cm : CostModel) (x y : list A) : result Z :=
  let* (M, P) := dynprog cm x y in
  mget M (length x) (length y).

(** ** Notions the properties are stated with *)

(** How [explain_dynprog] prints an operation. *)
Definition format_op (str : A -> string) (o : EditOp) : string :=
  match o with
  | Match cx cy => " match " +:+ str cx +:+ " and " +:+ str cy +:+ " "
  | Insert cy => "insert " +:+ str cy
  | Delete cx => "delete " +:+ str cx
  end.

(** Replaying a script through the cost model. *)
Definition op_cost (cm : CostModel) (o : EditOp) : Z :=
  match o with
  | Match cx cy => match_cost cm cx cy
  | Insert cy => insert_cost cm cy
  | Delete cx => delete_cost cm cx
  end.

Definition script_cost (cm : CostModel) (s : list EditOp) : Z :=
  sum (map (op_cost cm) s).

(** Applying a script to a source, left to right.  [Match] consumes a source
    element and writes the target element the operation records (the same
    element for a match of equal elements, another one for a substitution);
    [Insert] writes its element; [Delete] consumes a source element.  The
    result is [None] when the script and the source do not end together. *)
Fixpoint replay (s : list EditOp) (src : list A) : option (list A) :=
  match s, src with
  | [], [] => Some []
  | [], _ :: _ => None
  | Match _ cy :: s', _ :: src' => cons cy <$> replay s' src'
  | Match _ _ :: _, [] => None
  | Insert cy :: s', _ => cons cy <$> replay s' src
  | Delete _ :: s', _ :: src' => replay s' src'
  | Delete _ :: _, [] => None
  end.

(** The same, with [Match] copying the source element it consumes. *)
Fixpoint replay_copy (s : list EditOp) (src : list A) : option (list A) :=
  match s, src with
  | [], [] => Some []
  | [], _ :: _ => None
  | Match _ _ :: s', c :: src' => cons c <$> replay_copy s' src'
  | Match _ _ :: _, [] => None
  | Insert cy :: s', _ => cons cy <$> replay_copy s' src
  | Delete _ :: s', _ :: src' => replay_copy s' src'
  | Delete _ :: _, [] => None
  end.

(** A script whose [Match] operations all pair equal elements. *)
Definition no_substitution (s : list EditOp) : Prop :=
  Forall (fun o => match o with Match cx cy => cx = cy | _ => True end) s.

(** The recurrence of the docstring, on the sequences themselves.  [a] and
    [b] are read from their last element, so [dist_rev] takes them reversed. *)
Fixpoint dist_rev (cm : CostModel) (a : list A) : list A -> Z :=
  match a with
  | [] =>
      fix ins (b : list A) : Z :=
        match b with
        | [] => 0
        | cy :: b' => ins b' + insert_cost cm cy
        end
  | cx :: a' =>
      fix row (b : list A) : Z :=
        match b with
        | [] => dist_rev cm a' [] + delete_cost cm cx
        | cy :: b' =>
            min3 (dist_rev cm a' b' + match_cost cm cx cy)
                 (row b' + insert_cost cm cy)
                 (dist_rev cm a' b + delete_cost cm cx)
        end
  end%Z.

Definition dist (cm : CostModel) (a b : list A) : Z :=
  dist_rev cm (rev a) (rev b).

(** The operation code the recurrence records for a pair of prefixes. *)
Definition trace_rev (cm : CostModel) (a b : list A) : Z :=
  match a, b with
  | [], [] => 0
  | [], _ :: _ => dict_op op_insert
  | _ :: _, [] => dict_op op_delete
  | cx :: a', cy :: b' =>
      Z.of_nat (argmin [ dist_rev cm a' b' + match_cost cm cx cy;
                         dist_rev cm a b' + insert_cost cm cy;
                         dist_rev cm a' b + delete_cost cm cx ])
  end%Z.

Definition trace (cm : CostModel) (a b : list A) : Z :=
  trace_rev cm (rev a) (rev b).

(** The largest insertion cost over a list of elements (0 for none). *)
Definition max_insert_cost (cm : CostModel) (alphabet : list A) : Z :=
  foldr Z.max 0%Z (map (insert_cost cm) alphabet).

End Levenshtein.

(** ** Arrays as tables of cells *)

Definition cell (M : matrix) (i j : nat) : option Z :=
  match M !! i with
  | Some row => row !! j
  | None => None
  end.

(** [M.shape == (r, c)] *)
Definition shape (r c : nat) (M : matrix) : Prop :=
  length M = r /\ Forall (fun row => length row = c) M.

(** The cells written when the nested loops reach [(ix, iy)]: row 0,
    column 0, the rows above [ix], and row [ix] up to column [iy]. *)
Definition done_at (ix iy i j : nat) : Prop :=
  i = 0 \/ j = 0 \/ i < ix \/ (i = ix /\ j < iy).

(** The cells of a cost matrix selected by [done] hold the values of the
    recurrence on the prefixes of [x] and [y]. *)
Definition filled_cost {A : Type} (cm : CostModel) (x y : list A)
    (done : nat -> nat -> Prop) (M : matrix) : Prop :=
  shape (length x + 1) (length y + 1) M /\
  forall i j, i <= length x -> j <= length y -> done i j ->
    cell M i j = Some (dist cm (take i x) (take j y)).

(** The same for a cost matrix and its trace matrix. *)
Definition filled {A : Type} (cm : CostModel) (x y : list A)
    (done : nat -> nat -> Prop) (MP : matrix * matrix) : Prop :=
  shape (length x + 1) (length y + 1) MP.1 /\
  shape (length x + 1) (length y + 1) MP.2 /\
  forall i j, i <= length x -> j <= length y -> done i j ->
    cell MP.1 i j = Some (dist cm (take i x) (take j y)) /\
    cell MP.2 i j = Some (trace cm (take i x) (take j y)).

(** ** Concrete inputs *)

(** The words of the program's [__main__], and Python's [str] on characters. *)
Definition sunda : list Ascii.ascii := String.list_ascii_of_string "sunda".
Definition satu : list Ascii.ascii := String.list_ascii_of_string "satu".

Definition str_char (c : Ascii.ascii) : string := String c EmptyString.

Definition word_a : list Ascii.ascii := String.list_ascii_of_string "a".
Definition word_b : list Ascii.ascii := String.list_ascii_of_string "b".
Definition word_aa : list Ascii.ascii := String.list_ascii_of_string "aa".

(** A cost model with a negative deletion cost. *)
Definition negative_model : CostModel (A := Ascii.ascii) :=
  {| insert_cost := fun _ => 1%Z;
     delete_cost := fun _ => (-1)%Z;
     match_cost := fun cx cy => if decide (cx = cy) then 0%Z else 4%Z |}.

(** ** Further notions *)

Section Notions.

Context {A : Type} `{EqDecision A}.

(** A script is an alignment of [x] and [y]: read from left to right, its
    Match and Delete operations name the elements of [x] in order, its
    Match and Insert operations the elements of [y] in order, and nothing
    is left of either sequence at the end. *)
Fixpoint aligns (s : list (EditOp (A := A))) (x y : list A) : Prop :=
  match s with
  | [] => x = [] /\ y = []
  | Match cx cy :: s' =>
      match x, y with
      | cx' :: x', cy' :: y' => cx = cx' /\ cy = cy' /\ aligns s' x' y'
      | _, _ => False
      end
  | Insert cy :: s' =>
      match y with
      | cy' :: y' => cy = cy' /\ aligns s' x y'
      | [] => False
      end
  | Delete cx :: s' =>
      match x with
      | cx' :: x' => cx = cx' /\ aligns s' x' y
      | [] => False
      end
  end.

(** The cost model of the opposite direction: what was inserted is deleted,
    and a match is read from the other side. *)
Definition swap_model (cm : CostModel (A := A)) : CostModel (A := A) :=
  {| insert_cost := delete_cost cm;
     delete_cost := insert_cost cm;
     match_cost := fun cx cy => match_cost cm cy cx |}.

(** No cost is negative. *)
Definition nonneg_costs (cm : CostModel (A := A)) : Prop :=
  (forall c, 0 <= insert_cost cm c)%Z /\
  (forall c, 0 <= delete_cost cm c)%Z /\
  (forall cx cy, 0 <= match_cost cm cx cy)%Z.

(** Every cost of [cm] is at most the same cost of [cm']. *)
Definition costs_le (cm cm' : CostModel (A := A)) : Prop :=
  (forall c, insert_cost cm c <= insert_cost cm' c)%Z /\
  (forall c, delete_cost cm c <= delete_cost cm' c)%Z /\
  (forall cx cy, match_cost cm cx cy <= match_cost cm' cx cy)%Z.

(** Replacing an element by another costs more than deleting the one and
    inserting the other. *)
Definition substitution_dearer (cm : CostModel (A := A)) : Prop :=
  forall cx cy, cx <> cy ->
    (insert_cost cm cy + delete_cost cm cx < match_cost cm cx cy)%Z.

End Notions.

(** ** [dynprog] with NumPy's numbers *)

(** [dynprog] above adds and compares in [Z].  The program does not: the two
    [np.cumsum] run on lists of Python integers, in 64-bit integers that wrap
    around, and the cells of [M] are 64-bit floats, so that every integer
    stored in [M] and every sum formed from a cell is rounded to the nearest
    float.  [dynprog_np] is the same function with these numbers.  It
    describes integer costs that fit in 64 bits (for larger ones NumPy
    chooses another element type for the list) and cells below 2^1024 (where
    floats overflow to infinity).  The two readings agree when the costs are
    small enough for every number formed to be exact ([exact_range] below);
    the statements that depend on the numbers in [M] are made for
    [dynprog_np], under that condition. *)

(** A sum of 64-bit integers, which wraps around. *)
Definition wrap_int64 (z : Z) : Z := ((z + 2 ^ 63) mod 2 ^ 64 - 2 ^ 63)%Z.

(** The float nearest to an integer: the integer itself below 2^53, and
    above that the nearest multiple of the power of two that leaves 53
    significant bits, the even one of two equally near. *)
Definition round_float64 (z : Z) : Z :=
  let a := Z.abs z in
  if (a <? 2 ^ 53)%Z then z
  else
    let e := (Z.log2 a - 52)%Z in
    let q := (a / 2 ^ e)%Z in
    let r := (a mod 2 ^ e)%Z in
    let q' := match (2 * r ?= 2 ^ e)%Z with
              | Lt => q
              | Gt => (q + 1)%Z
              | Eq => if Z.even q then q else (q + 1)%Z
              end in
    (Z.sgn z * (q' * 2 ^ e))%Z.

(** [float + int]: the integer is converted to a float, and the sum of the
    two floats is rounded. *)
Definition float_add_int (f c : Z) : Z := round_float64 (f + round_float64 c).

(** [np.cumsum] of a list of integers. *)
Fixpoint np_cumsum_from (acc : Z) (l : list Z) : list Z :=
  match l with
  | [] => []
  | v :: l' =>
      let s := wrap_int64 (acc + v) in s :: np_cumsum_from s l'
  end.

Definition np_cumsum (l : list Z) : list Z := np_cumsum_from 0%Z l.

Section MachineNumbers.

Context {A : Type} `{EqDecision A}.

(** The body of the inner loop of [dynprog], on floats. *)
Definition dynprog_np_cell (cm : CostModel (A := A)) (x y : list A)
    (ix iy : nat) (MP : matrix * matrix) : result (matrix * matrix) :=
  let '(M, P) := MP in
  let* m := mget M (ix - 1) (iy - 1) in
  let* cx := index x (ix - 1) in
  let* cy := index y (iy - 1) in
  let* i := mget M ix (iy - 1) in
  let* cy' := index y (iy - 1) in
  let* d := mget M (ix - 1) iy in
  let* cx' := index x (ix - 1) in
  let L := [ float_add_int m (match_cost cm cx cy);
             float_add_int i (insert_cost cm cy');
             float_add_int d (delete_cost cm cx') ] in
  let i_min := argmin L in
  let* P' := mset P ix iy (Z.of_nat i_min) in
  let* v := index L i_min in
  let* M' := mset M ix iy v in
  Ok (M', P').

(** [dynprog]: the cumulative sums in 64-bit integers, stored as floats,
    and the cells in floats. *)
Definition dynprog_np (cm : CostModel (A := A)) (x y : list A)
  : result (matrix * matrix) :=
  let nx := length x in
  let ny := length y in
  let M := zeros (nx + 1) (ny + 1) in
  let P := zeros (nx + 1) (ny + 1) in
  let* M := set_col M 0 1
              (map round_float64 (np_cumsum (map (delete_cost cm) x))) in
  let* P := fill_col P 0 1 (dict_op op_delete) in
  let* M := set_row M 0 1
              (map round_float64 (np_cumsum (map (insert_cost cm) y))) in
  let* P := fill_row P 0 1 (dict_op op_insert) in
  for_range 1 (nx + 1)
    (fun ix => for_range 1 (ny + 1) (dynprog_np_cell cm x y ix))
    (M, P).

(** The final cell [M[nx, ny]]. *)
Definition edit_distance_np (cm : CostModel (A := A)) (x y : list A)
  : result Z :=
  let* (M, P) := dynprog_np cm x y in
  mget M (length x) (length y).

(** On the elements of [x] and [y] no cost exceeds [B] in absolute value. *)
Definition cost_bound (cm : CostModel (A := A)) (x y : list A) (B : Z) : Prop :=
  (forall cx, cx ∈ x -> (Z.abs (delete_cost cm cx) <= B)%Z) /\
  (forall cy, cy ∈ y -> (Z.abs (insert_cost cm cy) <= B)%Z) /\
  (forall cx cy, cx ∈ x -> cy ∈ y -> (Z.abs (match_cost cm cx cy) <= B)%Z).

(** The costs are small enough for every number [dynprog] forms on [x] and
    [y] to be exact: a sum of at most [nx + ny] costs stays below 2^53. *)
Definition exact_range (cm : CostModel (A := A)) (x y : list A) : Prop :=
  exists B, cost_bound cm x y B /\
    (Z.of_nat (length x + length y) * B < 2 ^ 53)%Z.

End MachineNumbers.

(** Cost models whose numbers leave the exact range. *)

(** Deleting costs 2^62: the sum of two deletions wraps around. *)
Definition big_delete_model : CostModel (A := ascii) :=
  {| insert_cost := fun _ => 1%Z;
     delete_cost := fun _ => (2 ^ 62)%Z;
     match_cost := fun cx cy => if decide (cx = cy) then 0%Z else 4%Z |}.


(** Inserting costs 2^52 + 1: three insertions cost 3 * 2^52 + 3, which is
    not a float; the nearest one is 3 * 2^52 + 4. *)
Definition odd_insert_model : CostModel (A := ascii) :=
  {| insert_cost := fun _ => (2 ^ 52 + 1)%Z;
     delete_cost := fun _ => 2%Z;
     match_cost := fun cx cy => if decide (cx = cy) then 0%Z else 4%Z |}.

(** ** The table [dict_op] *)

(** The keys and values of the table are integers and strings. *)
Inductive pyval : Type :=
  | PInt (n : Z)
  | PStr (s : string).

Global Instance pyval_eq_dec : EqDecision pyval.
Proof. solve_decision. Defined.

(** [{0: 'match', 1: 'insert', 2: 'delete',
      'match': 0, 'insert': 1, 'delete': 2}] *)
Definition dict_op_table : list (pyval * pyval) :=
  [ (PInt 0, PStr "match"); (PInt 1, PStr "insert"); (PInt 2, PStr "delete");
    (PStr "match", PInt 0); (PStr "insert", PInt 1); (PStr "delete", PInt 2) ].

(** [d[k]]; [None] stands for [KeyError]. *)
Fixpoint dict_get (d : list (pyval * pyval)) (k : pyval) : option pyval :=
  match d with
  | [] => None
  | (k', v) :: d' => if decide (k = k') then Some v else dict_get d' k
  end.

(** The name under which the table holds an operation. *)
Definition op_key (o : op_name) : pyval :=
  match o with
  | op_match => PStr "match"
  | op_insert => PStr "insert"
  | op_delete => PStr "delete"
  end.

(** * Properties *)

(** ** The error monad *)

Lemma bind_Ok {T U : Type} (c : result T) (k : T -> result U) (u : U) :
  bind c k = Ok u -> exists v, c = Ok v /\ k v = Ok u.
Proof. destruct c as [v|e]; simpl; intros H; [eauto | discriminate]. Qed.

Lemma index_Ok {T : Type} (l : list T) (i : nat) (v : T) :
  index l i = Ok v <-> l !! i = Some v.
Proof. unfold index. destruct (l !! i); split; congruence. Qed.

Lemma index_lookup {T : Type} (l : list T) (i : nat) (v : T) :
  l !! i = Some v -> index l i = Ok v.
Proof. apply index_Ok. Qed.

Lemma bind_Err {T U : Type} (c : result T) (k : T -> result U) (e : error) :
  bind c k = Err e -> c = Err e \/ exists v, c = Ok v /\ k v = Err e.
Proof.
  destruct c as [v|e']; simpl; intros H; [eauto | left; congruence].
Qed.

Lemma index_Err {T : Type} (l : list T) (i : nat) (e : error) :
  index l i = Err e -> e = IndexError.
Proof. unfold index. destruct (l !! i); congruence. Qed.

(** ** Arrays *)

Lemma mget_Err (M : matrix) (i j : nat) (e : error) :
  mget M i j = Err e -> e = IndexError.
Proof.
  unfold mget. intros H.
  apply bind_Err in H as [H | (row & _ & H)]; exact (index_Err _ _ _ H).
Qed.

Lemma mget_cell (M : matrix) (i j : nat) :
  mget M i j = match cell M i j with Some v => Ok v | None => Err IndexError end.
Proof.
  unfold mget, cell, index. destruct (M !! i) as [row|]; reflexivity.
Qed.

Lemma mget_Ok (M : matrix) (i j : nat) (v : Z) :
  mget M i j = Ok v <-> cell M i j = Some v.
Proof. rewrite mget_cell. destruct (cell M i j); split; congruence. Qed.

Lemma shape_cell (r c : nat) (M : matrix) (i j : nat) :
  shape r c M -> i < r -> j < c -> is_Some (cell M i j).
Proof.
  intros [Hr Hc] Hi Hj. unfold cell.
  destruct (lookup_lt_is_Some_2 M i) as [row Hrow]; [lia|].
  rewrite Hrow. apply lookup_lt_is_Some_2.
  rewrite Forall_lookup in Hc. rewrite (Hc _ _ Hrow). exact Hj.
Qed.

Lemma cell_shape (r c : nat) (M : matrix) (i j : nat) :
  shape r c M -> is_Some (cell M i j) -> i < r /\ j < c.
Proof.
  intros [Hr Hc] [v Hv]. unfold cell in Hv.
  destruct (M !! i) as [row|] eqn:Hrow; [|discriminate].
  rewrite Forall_lookup in Hc. specialize (Hc _ _ Hrow).
  apply lookup_lt_Some in Hrow, Hv. lia.
Qed.

Lemma shape_zeros (r c : nat) : shape r c (zeros r c).
Proof.
  split; [apply length_replicate|].
  apply Forall_replicate, length_replicate.
Qed.

Lemma cell_zeros (r c i j : nat) :
  i < r -> j < c -> cell (zeros r c) i j = Some 0%Z.
Proof.
  intros Hi Hj. unfold cell, zeros.
  rewrite lookup_replicate_2 by exact Hi.
  apply lookup_replicate_2, Hj.
Qed.

(** A write inside the array succeeds, keeps the shape, and changes the
    written cell only. *)
Lemma mset_spec (r c : nat) (M : matrix) (i j : nat) (v : Z) :
  shape r c M -> i < r -> j < c ->
  exists M', mset M i j v = Ok M' /\ shape r c M' /\
    cell M' i j = Some v /\
    forall i' j', (i', j') <> (i, j) -> cell M' i' j' = cell M i' j'.
Proof.
  intros [Hr Hc] Hi Hj.
  destruct (lookup_lt_is_Some_2 M i) as [row Hrow]; [lia|].
  assert (Hlen : length row = c).
  { rewrite Forall_lookup in Hc. exact (Hc _ _ Hrow). }
  exists (<[i := <[j := v]> row]> M). unfold mset.
  rewrite (index_lookup _ _ _ Hrow). simpl.
  rewrite decide_True by lia. split; [reflexivity|].
  split; [|split].
  - split; [rewrite length_insert; exact Hr|].
    apply Forall_insert; [exact Hc|]. rewrite length_insert. exact Hlen.
  - unfold cell. rewrite list_lookup_insert_eq by lia.
    apply list_lookup_insert_eq. lia.
  - intros i' j' Hne. unfold cell.
    destruct (decide (i' = i)) as [->|Hi'].
    + rewrite list_lookup_insert_eq by lia. rewrite Hrow.
      apply list_lookup_insert_ne. congruence.
    + rewrite list_lookup_insert_ne by congruence. reflexivity.
Qed.

(** A write outside the array raises [IndexError]. *)
Lemma mset_out_of_range (r c : nat) (M : matrix) (i j : nat) (v : Z) :
  shape r c M -> r <= i \/ c <= j -> mset M i j v = Err IndexError.
Proof.
  intros [Hr Hc] Hout. unfold mset, index.
  destruct (M !! i) as [row|] eqn:Hrow; [|reflexivity]. simpl.
  rewrite Forall_lookup in Hc. specialize (Hc _ _ Hrow).
  apply lookup_lt_Some in Hrow.
  rewrite decide_False by lia. reflexivity.
Qed.

(** ** Loops *)

(** The invariant rule of [for k in range(a, a + n)]. *)
Lemma for_each_seq {S : Type} (I : nat -> S -> Prop)
    (body : nat -> S -> result S) (n a : nat) (s : S) :
  I a s ->
  (forall k t, a <= k < a + n -> I k t ->
     exists t', body k t = Ok t' /\ I (Datatypes.S k) t') ->
  exists s', for_each (seq a n) body s = Ok s' /\ I (a + n) s'.
Proof.
  revert a s. induction n as [|n IH]; intros a s Ha Hbody; simpl.
  - exists s. rewrite Nat.add_0_r. auto.
  - destruct (Hbody a s) as (t' & Hb & Ht'); [lia | exact Ha |].
    rewrite Hb. simpl.
    destruct (IH (Datatypes.S a) t') as (s' & Hs' & HI); [exact Ht' | |].
    + intros k t Hk. apply Hbody. lia.
    + exists s'. split; [exact Hs'|].
      replace (a + Datatypes.S n) with (Datatypes.S a + n) by lia. exact HI.
Qed.

Lemma for_range_inv {S : Type} (I : nat -> S -> Prop)
    (body : nat -> S -> result S) (a b : nat) (s : S) :
  a <= b -> I a s ->
  (forall k t, a <= k < b -> I k t ->
     exists t', body k t = Ok t' /\ I (Datatypes.S k) t') ->
  exists s', for_range a b body s = Ok s' /\ I b s'.
Proof.
  intros Hab Ha Hbody. unfold for_range.
  destruct (for_each_seq I body (b - a) a s) as (s' & Hs' & HI); [exact Ha | |].
  - intros k t Hk. apply Hbody. lia.
  - exists s'. split; [exact Hs'|].
    replace b with (a + (b - a)) by lia. exact HI.
Qed.

(** ** Slice assignments *)

Lemma set_col_spec (r c : nat) (vals : list Z) (M : matrix) (j i : nat) :
  shape r c M -> j < c -> i + length vals <= r ->
  exists M', set_col M j i vals = Ok M' /\ shape r c M' /\
    (forall k v, vals !! k = Some v -> cell M' (i + k) j = Some v) /\
    (forall i' j', j' <> j \/ i' < i \/ i + length vals <= i' ->
       cell M' i' j' = cell M i' j').
Proof.
  revert M i. induction vals as [|v vals IH]; intros M i Hsh Hj Hlen; simpl in *.
  - exists M. repeat split; try apply Hsh; auto. intros k w Hk. discriminate.
  - destruct (mset_spec r c M i j v Hsh) as (M1 & Hset & Hsh1 & Hnew & Hold);
      [lia | exact Hj |].
    rewrite Hset. simpl.
    destruct (IH M1 (S i) Hsh1 Hj) as (M' & Hcol & Hsh' & Hvals & Hrest); [lia|].
    exists M'. split; [exact Hcol|]. split; [exact Hsh'|]. split.
    + intros [|k] w Hk; simpl in Hk.
      * injection Hk as <-. rewrite Nat.add_0_r.
        rewrite Hrest by lia. exact Hnew.
      * replace (i + S k) with (S i + k) by lia. apply Hvals, Hk.
    + intros i' j' Hout. rewrite Hrest by lia. apply Hold.
      intros Heq. injection Heq as -> ->. lia.
Qed.

Lemma set_row_spec (r c : nat) (vals : list Z) (M : matrix) (i j : nat) :
  shape r c M -> i < r -> j + length vals <= c ->
  exists M', set_row M i j vals = Ok M' /\ shape r c M' /\
    (forall k v, vals !! k = Some v -> cell M' i (j + k) = Some v) /\
    (forall i' j', i' <> i \/ j' < j \/ j + length vals <= j' ->
       cell M' i' j' = cell M i' j').
Proof.
  revert M j. induction vals as [|v vals IH]; intros M j Hsh Hi Hlen; simpl in *.
  - exists M. repeat split; try apply Hsh; auto. intros k w Hk. discriminate.
  - destruct (mset_spec r c M i j v Hsh) as (M1 & Hset & Hsh1 & Hnew & Hold);
      [exact Hi | lia |].
    rewrite Hset. simpl.
    destruct (IH M1 (S j) Hsh1 Hi) as (M' & Hrow & Hsh' & Hvals & Hrest); [lia|].
    exists M'. split; [exact Hrow|]. split; [exact Hsh'|]. split.
    + intros [|k] w Hk; simpl in Hk.
      * injection Hk as <-. rewrite Nat.add_0_r.
        rewrite Hrest by lia. exact Hnew.
      * replace (j + S k) with (S j + k) by lia. apply Hvals, Hk.
    + intros i' j' Hout. rewrite Hrest by lia. apply Hold.
      intros Heq. injection Heq as -> ->. lia.
Qed.

Lemma fill_col_spec (r c : nat) (M : matrix) (j i : nat) (v : Z) :
  shape r c M -> j < c -> i <= r ->
  exists M', fill_col M j i v = Ok M' /\ shape r c M' /\
    (forall i', i <= i' < r -> cell M' i' j = Some v) /\
    (forall i' j', j' <> j \/ i' < i -> cell M' i' j' = cell M i' j').
Proof.
  intros Hsh Hj Hi. unfold fill_col.
  assert (Hr : length M = r) by apply Hsh. rewrite Hr.
  destruct (set_col_spec r c (replicate (r - i) v) M j i Hsh Hj)
    as (M' & Hcol & Hsh' & Hvals & Hrest); [rewrite length_replicate; lia|].
  exists M'. split; [exact Hcol|]. split; [exact Hsh'|]. split.
  - intros i' Hi'. replace i' with (i + (i' - i)) by lia.
    apply Hvals, lookup_replicate_2. lia.
  - intros i' j' Hout. apply Hrest. lia.
Qed.

Lemma fill_row_spec (r c : nat) (M : matrix) (i j : nat) (v : Z) :
  shape r c M -> i < r -> j <= c ->
  exists M', fill_row M i j v = Ok M' /\ shape r c M' /\
    (forall j', j <= j' < c -> cell M' i j' = Some v) /\
    (forall i' j', i' <> i \/ j' < j -> cell M' i' j' = cell M i' j').
Proof.
  intros Hsh Hi Hj. unfold fill_row.
  destruct (lookup_lt_is_Some_2 M i) as [row Hrow]; [destruct Hsh; lia|].
  rewrite (index_lookup _ _ _ Hrow). simpl.
  assert (Hlen : length row = c).
  { destruct Hsh as [_ Hc]. rewrite Forall_lookup in Hc. exact (Hc _ _ Hrow). }
  rewrite Hlen.
  destruct (set_row_spec r c (replicate (c - j) v) M i j Hsh Hi)
    as (M' & Hset & Hsh' & Hvals & Hrest); [rewrite length_replicate; lia|].
  exists M'. split; [exact Hset|]. split; [exact Hsh'|]. split.
  - intros j' Hj'. replace j' with (j + (j' - j)) by lia.
    apply Hvals, lookup_replicate_2. lia.
  - intros i' j' Hout. apply Hrest. lia.
Qed.

(** ** Sums *)

Lemma fold_left_add (l : list Z) (a : Z) :
  fold_left Z.add l a = (a + fold_left Z.add l 0)%Z.
Proof.
  revert a. induction l as [|v l IH]; intros a; cbn [fold_left]; [lia|].
  rewrite (IH (a + v)%Z), (IH (0 + v)%Z). lia.
Qed.

Lemma sum_nil : sum [] = 0%Z.
Proof. reflexivity. Qed.

Lemma sum_cons (v : Z) (l : list Z) : sum (v :: l) = (v + sum l)%Z.
Proof. unfold sum. simpl. apply fold_left_add. Qed.

Lemma sum_app (l k : list Z) : sum (l ++ k) = (sum l + sum k)%Z.
Proof.
  induction l as [|v l IH]; simpl; [rewrite sum_nil; lia|].
  rewrite !sum_cons, IH. lia.
Qed.

Lemma sum_snoc (l : list Z) (v : Z) : sum (l ++ [v]) = (sum l + v)%Z.
Proof. rewrite sum_app, sum_cons, sum_nil. lia. Qed.

Lemma sum_rev (l : list Z) : sum (rev l) = sum l.
Proof.
  induction l as [|v l IH]; simpl; [reflexivity|].
  rewrite sum_snoc, sum_cons, IH. lia.
Qed.

Lemma length_cumsum_from (acc : Z) (l : list Z) :
  length (cumsum_from acc l) = length l.
Proof. revert acc. induction l; intros acc; simpl; auto. Qed.

Lemma lookup_cumsum_from (l : list Z) (acc : Z) (k : nat) :
  k < length l ->
  cumsum_from acc l !! k = Some (acc + sum (take (S k) l))%Z.
Proof.
  revert acc k. induction l as [|v l IH]; intros acc k Hk; simpl in *; [lia|].
  destruct k as [|k]; simpl.
  - rewrite take_0, sum_cons, sum_nil. f_equal. lia.
  - rewrite IH by lia. rewrite (sum_cons v). f_equal. lia.
Qed.

Lemma lookup_cumsum (l : list Z) (k : nat) :
  k < length l -> cumsum l !! k = Some (sum (take (S k) l)).
Proof. intros Hk. unfold cumsum. rewrite lookup_cumsum_from by exact Hk. reflexivity. Qed.

(** ** [np.argmin] on the three candidates *)

Lemma argmin3_index (a b c : Z) :
  index [a; b; c] (argmin [a; b; c]) = Ok (min3 a b c).
Proof.
  unfold argmin, argmin_from, min3.
  destruct (Z.ltb_spec b a); destruct (Z.ltb_spec c b);
    destruct (Z.ltb_spec c a); apply index_lookup; simpl; f_equal; lia.
Qed.

Lemma argmin3_cases (a b c : Z) :
  let p := argmin [a; b; c] in
  (p = 0 <-> (a <= b /\ a <= c)%Z) /\
  (p = 1 <-> (b < a /\ b <= c)%Z) /\
  (p = 2 <-> (c < a /\ c < b)%Z) /\
  p < 3.
Proof.
  unfold argmin, argmin_from.
  destruct (Z.ltb_spec b a); destruct (Z.ltb_spec c b);
    destruct (Z.ltb_spec c a); simpl; repeat split; intros; try lia.
Qed.

Section Recurrence.

Context {A : Type} `{EqDecision A}.
Context (cm : CostModel (A := A)).

(** ** The recurrence *)

Lemma dist_nil_nil : dist cm [] [] = 0%Z.
Proof. reflexivity. Qed.

Lemma dist_snoc_nil (a : list A) (cx : A) :
  dist cm (a ++ [cx]) [] = (dist cm a [] + delete_cost cm cx)%Z.
Proof. unfold dist. rewrite rev_unit. reflexivity. Qed.

Lemma dist_nil_snoc (b : list A) (cy : A) :
  dist cm [] (b ++ [cy]) = (dist cm [] b + insert_cost cm cy)%Z.
Proof. unfold dist. rewrite rev_unit. reflexivity. Qed.

Lemma dist_snoc_snoc (a b : list A) (cx cy : A) :
  dist cm (a ++ [cx]) (b ++ [cy]) =
  min3 (dist cm a b + match_cost cm cx cy)
       (dist cm (a ++ [cx]) b + insert_cost cm cy)
       (dist cm a (b ++ [cy]) + delete_cost cm cx).
Proof. unfold dist. rewrite !rev_unit. reflexivity. Qed.

Lemma dist_nil_r (a : list A) : dist cm a [] = sum (map (delete_cost cm) a).
Proof.
  induction a as [|cx a IH] using rev_ind; [reflexivity|].
  rewrite dist_snoc_nil, IH, map_app. simpl. rewrite sum_snoc. reflexivity.
Qed.

Lemma dist_nil_l (b : list A) : dist cm [] b = sum (map (insert_cost cm) b).
Proof.
  induction b as [|cy b IH] using rev_ind; [reflexivity|].
  rewrite dist_nil_snoc, IH, map_app. simpl. rewrite sum_snoc. reflexivity.
Qed.

Lemma trace_nil_nil : trace cm [] [] = 0%Z.
Proof. reflexivity. Qed.

Lemma trace_snoc_nil (a : list A) (cx : A) :
  trace cm (a ++ [cx]) [] = dict_op op_delete.
Proof. unfold trace. rewrite rev_unit. reflexivity. Qed.

Lemma trace_nil_snoc (b : list A) (cy : A) :
  trace cm [] (b ++ [cy]) = dict_op op_insert.
Proof. unfold trace. rewrite rev_unit. reflexivity. Qed.

Lemma trace_snoc_snoc (a b : list A) (cx cy : A) :
  trace cm (a ++ [cx]) (b ++ [cy]) =
  Z.of_nat (argmin [ dist cm a b + match_cost cm cx cy;
                     dist cm (a ++ [cx]) b + insert_cost cm cy;
                     dist cm a (b ++ [cy]) + delete_cost cm cx ])%Z.
Proof. unfold trace, dist. rewrite !rev_unit. reflexivity. Qed.

(** A prefix with one more element. *)
Lemma take_snoc (l : list A) (i : nat) :
  i < length l -> exists c, l !! i = Some c /\ take (S i) l = take i l ++ [c].
Proof.
  intros Hi. destruct (lookup_lt_is_Some_2 l i Hi) as [c Hc].
  exists c. split; [exact Hc | apply take_S_r, Hc].
Qed.

(** ** The matrices of [dynprog] *)

Context (x y : list A).

Lemma filled_weaken (done done' : nat -> nat -> Prop) (MP : matrix * matrix) :
  (forall i j, i <= length x -> j <= length y -> done' i j -> done i j) ->
  filled cm x y done MP -> filled cm x y done' MP.
Proof.
  intros Hsub (HM & HP & Hcells). split; [exact HM|]. split; [exact HP|].
  intros i j Hi Hj Hd. apply Hcells; auto.
Qed.

Lemma dynprog_boundary :
  exists M1 P1 M2 P2,
    set_col (zeros (length x + 1) (length y + 1)) 0 1
      (cumsum (map (delete_cost cm) x)) = Ok M1 /\
    fill_col (zeros (length x + 1) (length y + 1)) 0 1 (dict_op op_delete) = Ok P1 /\
    set_row M1 0 1 (cumsum (map (insert_cost cm) y)) = Ok M2 /\
    fill_row P1 0 1 (dict_op op_insert) = Ok P2 /\
    filled cm x y (done_at 1 1) (M2, P2).
Proof.
  set (r := length x + 1). set (c := length y + 1).
  destruct (set_col_spec r c (cumsum (map (delete_cost cm) x)) (zeros r c) 0 1)
    as (M1 & HM1 & HshM1 & HM1v & HM1o);
    [apply shape_zeros | unfold c; lia
    | unfold cumsum; rewrite length_cumsum_from, length_map; unfold r; lia |].
  destruct (fill_col_spec r c (zeros r c) 0 1 (dict_op op_delete))
    as (P1 & HP1 & HshP1 & HP1v & HP1o);
    [apply shape_zeros | unfold c; lia | unfold r; lia |].
  destruct (set_row_spec r c (cumsum (map (insert_cost cm) y)) M1 0 1)
    as (M2 & HM2 & HshM2 & HM2v & HM2o);
    [exact HshM1 | unfold r; lia
    | unfold cumsum; rewrite length_cumsum_from, length_map; unfold c; lia |].
  destruct (fill_row_spec r c P1 0 1 (dict_op op_insert))
    as (P2 & HP2 & HshP2 & HP2v & HP2o);
    [exact HshP1 | unfold r; lia | unfold c; lia |].
  exists M1, P1, M2, P2.
  split; [exact HM1|]. split; [exact HP1|].
  split; [exact HM2|]. split; [exact HP2|].
  split; [exact HshM2|]. split; [exact HshP2|].
  intros i j Hi Hj Hdone. simpl.
  assert (Hij : i = 0 \/ (j = 0 /\ 0 < i)) by (unfold done_at in Hdone; lia).
  destruct Hij as [-> | [-> Hpos]].
  - (* row 0 *)
    rewrite take_0. destruct j as [|j].
    + rewrite take_0, dist_nil_nil, trace_nil_nil.
      rewrite HM2o, HM1o, HP2o, HP1o by lia.
      rewrite !cell_zeros by (unfold r, c; lia). auto.
    + destruct (take_snoc y j) as (cy & Hcy & Htake); [lia|].
      split.
      * replace (S j) with (1 + j) at 1 by lia. apply HM2v.
        rewrite lookup_cumsum by (rewrite length_map; lia).
        rewrite dist_nil_l, firstn_map. reflexivity.
      * rewrite Htake, trace_nil_snoc. apply HP2v. unfold c. lia.
  - (* column 0 *)
    destruct i as [|i]; [lia|]. rewrite take_0.
    destruct (take_snoc x i) as (cx & Hcx & Htake); [lia|].
    split.
    + rewrite HM2o by lia. replace (S i) with (1 + i) at 1 by lia. apply HM1v.
      rewrite lookup_cumsum by (rewrite length_map; lia).
      rewrite dist_nil_r, firstn_map. reflexivity.
    + rewrite HP2o by lia. rewrite Htake, trace_snoc_nil.
      apply HP1v. unfold r. lia.
Qed.

End Recurrence.

Section DynprogFill.

Context {A : Type} `{EqDecision A}.
Context (cm : CostModel (A := A)) (x y : list A).

(** One iteration of the inner loop fills cell [(ix, iy)]. *)
Lemma dynprog_cell_filled (ix iy : nat) (MP : matrix * matrix) :
  1 <= ix <= length x -> 1 <= iy <= length y ->
  filled cm x y (done_at ix iy) MP ->
  exists MP', dynprog_cell cm x y ix iy MP = Ok MP' /\
    filled cm x y (done_at ix (S iy)) MP'.
Proof.
  intros Hix Hiy (HshM & HshP & Hcells). destruct MP as [M P].
  cbn [fst snd] in *.
  destruct ix as [|i]; [lia|]. destruct iy as [|j]; [lia|].
  destruct (take_snoc x i) as (cx & Hcx & Htx); [lia|].
  destruct (take_snoc y j) as (cy & Hcy & Hty); [lia|].
  destruct (Hcells i j) as [Hm _]; [lia | lia | unfold done_at; lia |].
  destruct (Hcells (S i) j) as [Hl _]; [lia | lia | unfold done_at; lia |].
  destruct (Hcells i (S j)) as [Hu _]; [lia | lia | unfold done_at; lia |].
  unfold dynprog_cell.
  replace (S i - 1) with i by lia. replace (S j - 1) with j by lia.
  rewrite (proj2 (mget_Ok _ _ _ _) Hm), (proj2 (mget_Ok _ _ _ _) Hl),
    (proj2 (mget_Ok _ _ _ _) Hu), (index_lookup _ _ _ Hcx),
    (index_lookup _ _ _ Hcy). cbn [bind].
  set (cM := (dist cm (take i x) (take j y) + match_cost cm cx cy)%Z).
  set (cI := (dist cm (take (S i) x) (take j y) + insert_cost cm cy)%Z).
  set (cD := (dist cm (take i x) (take (S j) y) + delete_cost cm cx)%Z).
  destruct (mset_spec _ _ P (S i) (S j) (Z.of_nat (argmin [cM; cI; cD])) HshP)
    as (P' & HP' & HshP' & HPnew & HPold); [lia | lia |].
  rewrite HP'. cbn [bind]. rewrite argmin3_index. cbn [bind].
  destruct (mset_spec _ _ M (S i) (S j) (min3 cM cI cD) HshM)
    as (M' & HM' & HshM' & HMnew & HMold); [lia | lia |].
  rewrite HM'. cbn [bind]. exists (M', P'). split; [reflexivity|].
  split; [exact HshM'|]. split; [exact HshP'|]. simpl.
  intros i' j' Hi' Hj' Hdone.
  destruct (decide ((i', j') = (S i, S j))) as [Heq|Hne].
  - injection Heq as -> ->. rewrite HMnew, HPnew.
    rewrite Htx, Hty, dist_snoc_snoc, trace_snoc_snoc, <- Htx, <- Hty.
    split; reflexivity.
  - rewrite (HMold _ _ Hne), (HPold _ _ Hne). apply Hcells; [lia | lia |].
    unfold done_at in *.
    assert (~ (i' = S i /\ j' = S j)) by (intros [-> ->]; congruence). lia.
Qed.

(** One iteration of the outer loop fills row [ix]. *)
Lemma dynprog_row_filled (ix : nat) (MP : matrix * matrix) :
  1 <= ix <= length x ->
  filled cm x y (done_at ix 1) MP ->
  exists MP', for_range 1 (length y + 1) (dynprog_cell cm x y ix) MP = Ok MP' /\
    filled cm x y (done_at (S ix) 1) MP'.
Proof.
  intros Hix Hfilled.
  destruct (for_range_inv (fun k => filled cm x y (done_at ix k))
              (dynprog_cell cm x y ix) 1 (length y + 1) MP)
    as (MP' & Hloop & Hend); [lia | exact Hfilled | |].
  - intros k t Hk Ht. apply dynprog_cell_filled; [exact Hix | lia | exact Ht].
  - exists MP'. split; [exact Hloop|].
    apply (filled_weaken cm x y (done_at ix (length y + 1))); [|exact Hend].
    unfold done_at. intros i j Hi Hj. lia.
Qed.

(** [dynprog] returns, for every input, and its matrices are the tables of
    the recurrence. *)
Lemma dynprog_filled :
  exists M P, dynprog cm x y = Ok (M, P) /\
    filled cm x y (fun _ _ => True) (M, P).
Proof.
  destruct (dynprog_boundary cm x y)
    as (M1 & P1 & M2 & P2 & HM1 & HP1 & HM2 & HP2 & Hb).
  unfold dynprog. cbv zeta. rewrite HM1. cbn [bind]. rewrite HP1. cbn [bind].
  rewrite HM2. cbn [bind]. rewrite HP2. cbn [bind].
  destruct (for_range_inv (fun k => filled cm x y (done_at k 1))
              (fun ix => for_range 1 (length y + 1) (dynprog_cell cm x y ix))
              1 (length x + 1) (M2, P2))
    as ([M P] & Hloop & Hend); [lia | exact Hb | |].
  - intros k t Hk Ht. apply dynprog_row_filled; [lia | exact Ht].
  - exists M, P. split; [exact Hloop|].
    apply (filled_weaken cm x y (done_at (length x + 1) 1)); [|exact Hend].
    unfold done_at. intros i j Hi Hj _. lia.
Qed.

(** The same, cell by cell. *)
Lemma dynprog_cells :
  exists M P, dynprog cm x y = Ok (M, P) /\
    shape (length x + 1) (length y + 1) M /\
    shape (length x + 1) (length y + 1) P /\
    forall i j, i <= length x -> j <= length y ->
      mget M i j = Ok (dist cm (take i x) (take j y)) /\
      mget P i j = Ok (trace cm (take i x) (take j y)).
Proof.
  destruct dynprog_filled as (M & P & Hdyn & HshM & HshP & Hcells).
  exists M, P. split; [exact Hdyn|]. split; [exact HshM|]. split; [exact HshP|].
  intros i j Hi Hj. destruct (Hcells i j Hi Hj I) as [HM HP].
  split; apply mget_Ok; assumption.
Qed.

Lemma edit_distance_dist : edit_distance cm x y = Ok (dist cm x y).
Proof.
  destruct dynprog_cells as (M & P & Hdyn & _ & _ & Hcells).
  unfold edit_distance. rewrite Hdyn. simpl.
  destruct (Hcells (length x) (length y)) as [HM _]; [lia | lia |].
  rewrite HM, !firstn_all. reflexivity.
Qed.

End DynprogFill.

(** ** The walk of [explain_dynprog] *)

Section BacktrackProps.

Context {A : Type} `{EqDecision A} {T : Type}.
Context (mk_match : A -> A -> T) (mk_insert : A -> T) (mk_delete : A -> T).
Context (x y : list A) (P : matrix).

Local Abbreviation step := (backtrack_step mk_match mk_insert mk_delete x y P).
Local Abbreviation walk := (backtrack mk_match mk_insert mk_delete x y P).

Lemma backtrack_S_S (i j : nat) (L : list T) :
  walk (S i) (S j) L =
  match step i j with
  | Ok (Diag, t) => walk i j (L ++ [t])
  | Ok (Left, t) => walk (S i) j (L ++ [t])
  | Ok (Up, t) => walk i (S j) (L ++ [t])
  | Err e => Err e
  end.
Proof.
  simp backtrack. destruct (step i j) as [[[] t]|e]; reflexivity.
Qed.

(** What an iteration of the first loop reads and appends. *)
Lemma backtrack_step_Ok (i j : nat) (mv : move) (t : T) :
  step i j = Ok (mv, t) ->
  exists p, cell P (S i) (S j) = Some p /\
    ((mv = Diag /\ p = 0%Z /\
        exists cx cy, x !! i = Some cx /\ y !! j = Some cy /\ t = mk_match cx cy) \/
     (mv = Left /\ p = 1%Z /\
        exists cy, y !! j = Some cy /\ t = mk_insert cy) \/
     (mv = Up /\ p <> 0%Z /\ p <> 1%Z /\
        exists cx, x !! i = Some cx /\ t = mk_delete cx)).
Proof.
  unfold backtrack_step. intros Hstep.
  apply bind_Ok in Hstep as (p & Hp & Hstep). apply mget_Ok in Hp.
  exists p. split; [exact Hp|].
  destruct (decide (p = 0%Z)) as [Hp0|Hp0].
  - apply bind_Ok in Hstep as (cx & Hcx & Hstep).
    apply bind_Ok in Hstep as (cy & Hcy & Hstep).
    apply index_Ok in Hcx, Hcy. injection Hstep as <- <-. left. eauto 10.
  - destruct (decide (p = 1%Z)) as [Hp1|Hp1].
    + apply bind_Ok in Hstep as (cy & Hcy & Hstep).
      apply index_Ok in Hcy. injection Hstep as <- <-. right. left. eauto 10.
    + apply bind_Ok in Hstep as (cx & Hcx & Hstep).
      apply index_Ok in Hcx. injection Hstep as <- <-. right. right. eauto 10.
Qed.

(** An iteration succeeds when the cell it reads exists. *)
Lemma backtrack_step_total (i j : nat) :
  i < length x -> j < length y -> is_Some (cell P (S i) (S j)) ->
  exists mv t, step i j = Ok (mv, t).
Proof.
  intros Hi Hj [p Hp]. unfold backtrack_step.
  rewrite (proj2 (mget_Ok _ _ _ _) Hp). cbn [bind].
  destruct (lookup_lt_is_Some_2 x i Hi) as [cx Hcx].
  destruct (lookup_lt_is_Some_2 y j Hj) as [cy Hcy].
  rewrite (index_lookup _ _ _ Hcx), (index_lookup _ _ _ Hcy).
  destruct (decide (p = 0%Z)); [|destruct (decide (p = 1%Z))];
    cbn [bind]; eauto.
Qed.

(** The invariant rule of the first loop. *)
Lemma backtrack_rule (I : nat -> nat -> list T -> Prop) :
  (forall i j L cx cy, x !! i = Some cx -> y !! j = Some cy ->
     cell P (S i) (S j) = Some 0%Z ->
     I (S i) (S j) L -> I i j (L ++ [mk_match cx cy])) ->
  (forall i j L cy, y !! j = Some cy ->
     cell P (S i) (S j) = Some 1%Z ->
     I (S i) (S j) L -> I (S i) j (L ++ [mk_insert cy])) ->
  (forall i j L cx p, x !! i = Some cx ->
     cell P (S i) (S j) = Some p -> p <> 0%Z -> p <> 1%Z ->
     I (S i) (S j) L -> I i (S j) (L ++ [mk_delete cx])) ->
  forall ix iy L ix' iy' L',
    walk ix iy L = Ok (ix', iy', L') -> I ix iy L ->
    I ix' iy' L' /\ (ix' = 0 \/ iy' = 0) /\ ix' <= ix /\ iy' <= iy.
Proof.
  intros Hmatch Hinsert Hdelete ix iy L.
  funelim (walk ix iy L); intros ix' iy' L' Hwalk HI.
  - injection Hwalk as <- <- <-. auto with lia.
  - injection Hwalk as <- <- <-. auto with lia.
  - apply backtrack_step_Ok in Heq
      as (p & Hp & [(_ & -> & cx & cy & Hcx & Hcy & ->)
                   |[(? & _)|(? & _)]]); try discriminate.
    destruct (H I Hmatch Hinsert Hdelete _ _ _ Hwalk) as (? & ? & ? & ?); [eapply Hmatch; eauto|].
    auto with lia.
  - apply backtrack_step_Ok in Heq
      as (p & Hp & [(? & _)
                   |[(_ & -> & cy & Hcy & ->)|(? & _)]]); try discriminate.
    destruct (H I Hmatch Hinsert Hdelete _ _ _ Hwalk) as (? & ? & ? & ?); [eapply Hinsert; eauto|].
    auto with lia.
  - apply backtrack_step_Ok in Heq
      as (p & Hp & [(? & _)
                   |[(? & _)|(_ & Hp0 & Hp1 & cx & Hcx & ->)]]); try discriminate.
    destruct (H I Hmatch Hinsert Hdelete _ _ _ Hwalk) as (? & ? & ? & ?); [eapply Hdelete; eauto|].
    auto with lia.
  - discriminate.
Qed.

Lemma backtrack_bounds (ix iy : nat) (L : list T) (ix' iy' : nat) (L' : list T) :
  walk ix iy L = Ok (ix', iy', L') ->
  (ix' = 0 \/ iy' = 0) /\ ix' <= ix /\ iy' <= iy.
Proof.
  intros Hwalk.
  apply (backtrack_rule (fun _ _ _ => True)) in Hwalk; auto. tauto.
Qed.

(** The first loop ends when the cells it reads exist. *)
Lemma backtrack_total (ix iy : nat) (L : list T) :
  ix <= length x -> iy <= length y ->
  (forall i j, 1 <= i <= ix -> 1 <= j <= iy -> is_Some (cell P i j)) ->
  exists r, walk ix iy L = Ok r.
Proof.
  funelim (walk ix iy L); intros Hix Hiy Hcells; try (eexists; reflexivity).
  - apply H; [lia | lia |].
    intros i' j' Hi' Hj'. apply Hcells; lia.
  - apply H; [lia | lia |].
    intros i' j' Hi' Hj'. apply Hcells; lia.
  - apply H; [lia | lia |].
    intros i' j' Hi' Hj'. apply Hcells; lia.
  - destruct (backtrack_step_total i j) as (mv & t & Hstep);
      [lia | lia | apply Hcells; lia |].
    congruence.
Qed.

(** The two draining loops. *)
Lemma drain_delete_take (ix : nat) (L : list T) :
  ix <= length x ->
  drain_delete mk_delete x ix L = Ok (L ++ map mk_delete (rev (take ix x))).
Proof.
  revert L. induction ix as [|i IH]; intros L Hix; simpl.
  - rewrite app_nil_r. reflexivity.
  - destruct (lookup_lt_is_Some_2 x i) as [cx Hcx]; [lia|].
    rewrite (index_lookup _ _ _ Hcx). cbn [bind].
    rewrite IH by lia.
    change (match x with [] => [] | a :: l => a :: take i l end)
      with (take (S i) x).
    rewrite (take_S_r _ _ _ Hcx), rev_unit. simpl.
    rewrite <- app_assoc. reflexivity.
Qed.

Lemma drain_insert_take (iy : nat) (L : list T) :
  iy <= length y ->
  drain_insert mk_insert y iy L = Ok (L ++ map mk_insert (rev (take iy y))).
Proof.
  revert L. induction iy as [|j IH]; intros L Hiy; simpl.
  - rewrite app_nil_r. reflexivity.
  - destruct (lookup_lt_is_Some_2 y j) as [cy Hcy]; [lia|].
    rewrite (index_lookup _ _ _ Hcy). cbn [bind].
    rewrite IH by lia.
    change (match y with [] => [] | a :: l => a :: take j l end)
      with (take (S j) y).
    rewrite (take_S_r _ _ _ Hcy), rev_unit. simpl.
    rewrite <- app_assoc. reflexivity.
Qed.

(** [explain] returns the items of the first loop, then the drained ones,
    in reverse order of emission. *)
Lemma explain_Ok (s : list T) :
  explain mk_match mk_insert mk_delete x y P = Ok s <->
  exists ix iy L, walk (length x) (length y) [] = Ok (ix, iy, L) /\
    s = map mk_insert (take iy y) ++ map mk_delete (take ix x) ++ rev L.
Proof.
  unfold explain. split.
  - intros Hex. apply bind_Ok in Hex as ([[ix iy] L] & Hwalk & Hex).
    exists ix, iy, L. split; [exact Hwalk|].
    destruct (backtrack_bounds _ _ _ _ _ _ Hwalk) as (_ & Hix & Hiy).
    rewrite drain_delete_take in Hex by exact Hix. cbn [bind] in Hex.
    rewrite drain_insert_take in Hex by exact Hiy. cbn [bind] in Hex.
    injection Hex as <-.
    rewrite !rev_app_distr, <- !map_rev, !rev_involutive, app_assoc.
    reflexivity.
  - intros (ix & iy & L & Hwalk & ->). rewrite Hwalk. cbn [bind].
    destruct (backtrack_bounds _ _ _ _ _ _ Hwalk) as (_ & Hix & Hiy).
    rewrite drain_delete_take by exact Hix. cbn [bind].
    rewrite drain_insert_take by exact Hiy. cbn [bind].
    rewrite !rev_app_distr, <- !map_rev, !rev_involutive, app_assoc.
    reflexivity.
Qed.

(** The only error of the walk is an index out of range. *)
Lemma backtrack_step_Err (i j : nat) (e : error) :
  step i j = Err e -> e = IndexError.
Proof.
  unfold backtrack_step. intros H.
  apply bind_Err in H as [H | (p & _ & H)]; [exact (mget_Err _ _ _ _ H)|].
  destruct (decide (p = 0%Z)); [|destruct (decide (p = 1%Z))];
    repeat (apply bind_Err in H as [H | (? & _ & H)];
            [exact (index_Err _ _ _ H)|]);
    discriminate.
Qed.

Lemma backtrack_Err (ix iy : nat) (L : list T) (e : error) :
  walk ix iy L = Err e -> e = IndexError.
Proof.
  funelim (walk ix iy L); intros Hwalk; try discriminate; eauto.
  injection Hwalk as <-. exact (backtrack_step_Err _ _ _ Heq).
Qed.

Lemma explain_Err (e : error) :
  explain mk_match mk_insert mk_delete x y P = Err e -> e = IndexError.
Proof.
  unfold explain. intros H.
  apply bind_Err in H as [H | ([[ix iy] L] & Hwalk & H)];
    [exact (backtrack_Err _ _ _ _ H)|].
  destruct (backtrack_bounds _ _ _ _ _ _ Hwalk) as (_ & Hix & Hiy).
  rewrite drain_delete_take in H by exact Hix. cbn [bind] in H.
  rewrite drain_insert_take in H by exact Hiy. discriminate.
Qed.

(** [explain] returns when the trace matrix has the cells of the walk. *)
Lemma explain_total :
  (forall i j, 1 <= i <= length x -> 1 <= j <= length y -> is_Some (cell P i j)) ->
  exists s, explain mk_match mk_insert mk_delete x y P = Ok s.
Proof.
  intros Hcells.
  destruct (backtrack_total (length x) (length y) []) as ([[ix iy] L] & Hwalk);
    [lia | lia | exact Hcells |].
  eexists. apply explain_Ok. eauto.
Qed.

End BacktrackProps.

(** ** Strings and operations: the same walk *)

Section BacktrackMap.

Context {A : Type} `{EqDecision A} {T U : Type} (f : T -> U).
Context (mk_match : A -> A -> T) (mk_insert : A -> T) (mk_delete : A -> T).
Context (x y : list A) (P : matrix).

Local Abbreviation fm := (fun cx cy => f (mk_match cx cy)).
Local Abbreviation fi := (fun cy => f (mk_insert cy)).
Local Abbreviation fd := (fun cx => f (mk_delete cx)).

Lemma backtrack_step_map (i j : nat) :
  backtrack_step fm fi fd x y P i j =
  match backtrack_step mk_match mk_insert mk_delete x y P i j with
  | Ok (mv, t) => Ok (mv, f t)
  | Err e => Err e
  end.
Proof.
  unfold backtrack_step.
  destruct (mget P (S i) (S j)) as [p|e]; [|reflexivity]. cbn [bind].
  destruct (decide (p = 0%Z)); [|destruct (decide (p = 1%Z))];
    destruct (index x i); destruct (index y j); reflexivity.
Qed.

Lemma backtrack_map (ix iy : nat) (L : list T) :
  backtrack fm fi fd x y P ix iy (map f L) =
  match backtrack mk_match mk_insert mk_delete x y P ix iy L with
  | Ok (ix', iy', L') => Ok (ix', iy', map f L')
  | Err e => Err e
  end.
Proof.
  funelim (backtrack mk_match mk_insert mk_delete x y P ix iy L).
  - simp backtrack. reflexivity.
  - simp backtrack. reflexivity.
  - rewrite backtrack_S_S, backtrack_step_map, Heq, <- H, map_app. reflexivity.
  - rewrite backtrack_S_S, backtrack_step_map, Heq, <- H, map_app. reflexivity.
  - rewrite backtrack_S_S, backtrack_step_map, Heq, <- H, map_app. reflexivity.
  - rewrite backtrack_S_S, backtrack_step_map, Heq. reflexivity.
Qed.

Lemma drain_delete_map (ix : nat) (L : list T) :
  drain_delete fd x ix (map f L) =
  match drain_delete mk_delete x ix L with
  | Ok L' => Ok (map f L')
  | Err e => Err e
  end.
Proof.
  revert L. induction ix as [|i IH]; intros L; simpl; [reflexivity|].
  destruct (index x i) as [cx|e]; [|reflexivity]. cbn [bind].
  rewrite <- IH, map_app. reflexivity.
Qed.

Lemma drain_insert_map (iy : nat) (L : list T) :
  drain_insert fi y iy (map f L) =
  match drain_insert mk_insert y iy L with
  | Ok L' => Ok (map f L')
  | Err e => Err e
  end.
Proof.
  revert L. induction iy as [|j IH]; intros L; simpl; [reflexivity|].
  destruct (index y j) as [cy|e]; [|reflexivity]. cbn [bind].
  rewrite <- IH, map_app. reflexivity.
Qed.

Lemma explain_map :
  explain fm fi fd x y P =
  match explain mk_match mk_insert mk_delete x y P with
  | Ok s => Ok (map f s)
  | Err e => Err e
  end.
Proof.
  unfold explain. change (@nil U) with (map f []) at 1.
  rewrite backtrack_map.
  destruct (backtrack mk_match mk_insert mk_delete x y P (length x) (length y) [])
    as [[[ix iy] L]|e]; [|reflexivity]. cbn [bind].
  rewrite drain_delete_map.
  destruct (drain_delete mk_delete x ix L) as [L1|e]; [|reflexivity]. cbn [bind].
  rewrite drain_insert_map.
  destruct (drain_insert mk_insert y iy L1) as [L2|e]; [|reflexivity]. cbn [bind].
  rewrite map_rev. reflexivity.
Qed.

End BacktrackMap.

Section Scripts.

Context {A : Type} `{EqDecision A}.

(** The strings [explain_dynprog] returns are the operations of
    [edit_script], printed. *)
Lemma explain_dynprog_edit_script (str : A -> string) (x y : list A) (M P : matrix) :
  explain_dynprog str x y M P =
  match edit_script x y M P with
  | Ok s => Ok (map (format_op str) s)
  | Err e => Err e
  end.
Proof.
  unfold explain_dynprog, edit_script.
  rewrite <- (explain_map (format_op str) Match Insert Delete). reflexivity.
Qed.

(** *** Replaying a script on the source *)

Lemma replay_drained (b a : list A) (s : list EditOp) (src : list A) :
  replay (map Insert b ++ map Delete a ++ s) (a ++ src) =
  app b <$> replay s src.
Proof.
  induction b as [|cy b IHb]; simpl.
  - induction a as [|cx a IHa]; simpl; [|exact IHa].
    destruct (replay s src); reflexivity.
  - rewrite IHb. destruct (replay s src); reflexivity.
Qed.

Lemma replay_copy_drained (b a : list A) (s : list EditOp) (src : list A) :
  replay_copy (map Insert b ++ map Delete a ++ s) (a ++ src) =
  app b <$> replay_copy s src.
Proof.
  induction b as [|cy b IHb]; simpl.
  - induction a as [|cx a IHa]; simpl; [|exact IHa].
    destruct (replay_copy s src); reflexivity.
  - rewrite IHb. destruct (replay_copy s src); reflexivity.
Qed.

(** Whatever the trace matrix holds, a script the walk returns turns [x]
    into [y]. *)
Lemma edit_script_replay (x y : list A) (M P : matrix) (s : list EditOp) :
  edit_script x y M P = Ok s ->
  replay s x = Some y /\ (no_substitution s -> replay_copy s x = Some y).
Proof.
  unfold edit_script. intros Hs.
  apply explain_Ok in Hs as (ix & iy & L & Hwalk & ->).
  apply (backtrack_rule Match Insert Delete x y P
           (fun ix iy L =>
              replay (rev L) (drop ix x) = Some (drop iy y) /\
              (no_substitution (rev L) ->
               replay_copy (rev L) (drop ix x) = Some (drop iy y))))
    in Hwalk as ([Hrep Hcopy] & _).
  - pose proof (replay_drained (take iy y) (take ix x) (rev L) (drop ix x)) as E1.
    pose proof (replay_copy_drained (take iy y) (take ix x) (rev L) (drop ix x))
      as E2.
    rewrite take_drop in E1, E2. rewrite E1, E2, Hrep.
    split; [simpl; rewrite take_drop; reflexivity|].
    intros Hns. rewrite Hcopy; [simpl; rewrite take_drop; reflexivity|].
    unfold no_substitution in *. rewrite !Forall_app in Hns. tauto.
  - intros i j L' cx cy Hcx Hcy _ [Hrep Hcopy].
    rewrite rev_unit, (drop_S _ _ _ Hcx), (drop_S _ _ _ Hcy). simpl.
    rewrite Hrep. split; [reflexivity|].
    intros Hns. apply Forall_cons in Hns as [-> Hns].
    rewrite (Hcopy Hns). reflexivity.
  - intros i j L' cy Hcy _ [Hrep Hcopy].
    rewrite rev_unit, (drop_S _ _ _ Hcy). simpl.
    rewrite Hrep. split; [reflexivity|].
    intros Hns. apply Forall_cons in Hns as [_ Hns].
    rewrite (Hcopy Hns). reflexivity.
  - intros i j L' cx p Hcx _ _ _ [Hrep Hcopy].
    rewrite rev_unit, (drop_S _ _ _ Hcx). simpl.
    split; [exact Hrep|].
    intros Hns. apply Forall_cons in Hns as [_ Hns]. exact (Hcopy Hns).
  - rewrite !drop_all. simpl. auto.
Qed.

(** *** Replaying a script through the cost model *)

Context (cm : CostModel (A := A)).

Lemma script_cost_app (s t : list EditOp) :
  script_cost cm (s ++ t) = (script_cost cm s + script_cost cm t)%Z.
Proof. unfold script_cost. rewrite map_app, sum_app. reflexivity. Qed.

Lemma script_cost_rev (s : list EditOp) :
  script_cost cm (rev s) = script_cost cm s.
Proof. unfold script_cost. rewrite map_rev, sum_rev. reflexivity. Qed.

Lemma script_cost_inserts (b : list A) :
  script_cost cm (map Insert b) = dist cm [] b.
Proof. unfold script_cost. rewrite map_map, dist_nil_l. reflexivity. Qed.

Lemma script_cost_deletes (a : list A) :
  script_cost cm (map Delete a) = dist cm a [].
Proof. unfold script_cost. rewrite map_map, dist_nil_r. reflexivity. Qed.

(** The operation code of a cell names the candidate that gives its cost. *)
Lemma trace_dist_step (x y : list A) (i j : nat) (cx cy : A) :
  x !! i = Some cx -> y !! j = Some cy ->
  let p := trace cm (take (S i) x) (take (S j) y) in
  let d := dist cm (take (S i) x) (take (S j) y) in
  (p = 0 -> d = dist cm (take i x) (take j y) + match_cost cm cx cy)%Z /\
  (p = 1 -> d = dist cm (take (S i) x) (take j y) + insert_cost cm cy)%Z /\
  (p <> 0 -> p <> 1 ->
     d = dist cm (take i x) (take (S j) y) + delete_cost cm cx)%Z.
Proof.
  intros Hcx Hcy. cbv zeta.
  rewrite (take_S_r _ _ _ Hcx), (take_S_r _ _ _ Hcy).
  rewrite trace_snoc_snoc, dist_snoc_snoc.
  set (cM := (dist cm (take i x) (take j y) + match_cost cm cx cy)%Z).
  set (cI := (dist cm (take i x ++ [cx]) (take j y) + insert_cost cm cy)%Z).
  set (cD := (dist cm (take i x) (take j y ++ [cy]) + delete_cost cm cx)%Z).
  pose proof (argmin3_cases cM cI cD) as Hcases. cbv zeta in Hcases.
  unfold min3. lia.
Qed.

(** On the matrices of the recurrence, the cost of the script is the cost of
    the final cell. *)
Lemma edit_script_cost (x y : list A) (M P : matrix) (s : list EditOp) :
  (forall i j, i <= length x -> j <= length y ->
     cell P i j = Some (trace cm (take i x) (take j y))) ->
  edit_script x y M P = Ok s ->
  script_cost cm s = dist cm x y.
Proof.
  unfold edit_script. intros Hcells Hs.
  apply explain_Ok in Hs as (ix & iy & L & Hwalk & ->).
  apply (backtrack_rule Match Insert Delete x y P
           (fun ix iy L =>
              ix <= length x /\ iy <= length y /\
              (script_cost cm L + dist cm (take ix x) (take iy y))%Z =
              dist cm x y))
    in Hwalk as ((_ & _ & Hcost) & Hzero & _).
  - rewrite !script_cost_app, script_cost_rev,
      script_cost_inserts, script_cost_deletes.
    destruct Hzero as [-> | ->]; rewrite take_0 in *;
      rewrite ?dist_nil_nil; lia.
  - intros i j L' cx cy Hcx Hcy Hp (Hi & Hj & Hinv).
    rewrite Hcells in Hp by lia.
    destruct (trace_dist_step x y i j cx cy Hcx Hcy) as (H0 & _ & _).
    rewrite script_cost_app. unfold script_cost at 2. simpl.
    rewrite sum_cons, sum_nil. rewrite H0 in Hinv by congruence. lia.
  - intros i j L' cy Hcy Hp (Hi & Hj & Hinv).
    destruct (lookup_lt_is_Some_2 x i) as [cx Hcx]; [lia|].
    rewrite Hcells in Hp by lia.
    destruct (trace_dist_step x y i j cx cy Hcx Hcy) as (_ & H1 & _).
    rewrite script_cost_app. unfold script_cost at 2. simpl.
    rewrite sum_cons, sum_nil. rewrite H1 in Hinv by congruence. lia.
  - intros i j L' cx p Hcx Hp Hp0 Hp1 (Hi & Hj & Hinv).
    destruct (lookup_lt_is_Some_2 y j) as [cy Hcy]; [lia|].
    rewrite Hcells in Hp by lia.
    destruct (trace_dist_step x y i j cx cy Hcx Hcy) as (_ & _ & H2).
    rewrite script_cost_app. unfold script_cost at 2. simpl.
    rewrite sum_cons, sum_nil. rewrite H2 in Hinv by congruence. lia.
  - rewrite !firstn_all. unfold script_cost. simpl. rewrite sum_nil.
    split; [lia|]. split; lia.
Qed.

End Scripts.

(** ** [lev] *)

Section Lev.

Context {A : Type} `{EqDecision A}.

(** With a non-empty first sequence [lev] returns at once, with the cost of
    inserting the second. *)
Lemma lev_nonempty (depth : nat) (cm : CostModel (A := A)) (a b : list A) :
  a <> [] -> lev (S depth) cm a b = Ok (sum (map (insert_cost cm) b)).
Proof.
  intros Ha. simpl. destruct (decide (a <> [])); [reflexivity | contradiction].
Qed.

(** With an empty first sequence and a non-empty second one it returns the
    cost of deleting the first, which is 0. *)
Lemma lev_empty_nonempty (depth : nat) (cm : CostModel (A := A)) (b : list A) :
  b <> [] -> lev (S depth) cm [] b = Ok 0%Z.
Proof.
  intros Hb. simpl. destruct (decide (b <> [])); [reflexivity | contradiction].
Qed.

(** On two empty sequences it calls itself on the same arguments, until the
    recursion limit is reached. *)
Lemma lev_empty_empty (depth : nat) (cm : CostModel (A := A)) :
  lev depth cm [] [] = Err RecursionError.
Proof.
  revert cm. induction depth as [|depth IH]; intros cm; [reflexivity|].
  simpl. rewrite IH. reflexivity.
Qed.

End Lev.

(** ** [levenshtein] *)

Lemma sum_map_const_1 {T : Type} (l : list T) :
  sum (map (fun _ => 1%Z) l) = Z.of_nat (length l).
Proof.
  induction l as [|v l IH]; [reflexivity|].
  simpl map. rewrite sum_cons, IH. simpl length. lia.
Qed.

Section LevenshteinFill.

Context {A : Type} `{EqDecision A}.
Context (seq1 seq2 : list A).

Local Abbreviation D i j := (dist unit_model (take i seq1) (take j seq2)).
Local Abbreviation filled1 := (filled_cost unit_model seq1 seq2).

Lemma unit_dist_col (i : nat) : i <= length seq1 -> D i 0 = Z.of_nat i.
Proof.
  intros Hi. rewrite take_0, dist_nil_r. simpl.
  rewrite sum_map_const_1, length_take. lia.
Qed.

Lemma unit_dist_row (j : nat) : j <= length seq2 -> D 0 j = Z.of_nat j.
Proof.
  intros Hj. rewrite take_0, dist_nil_l. simpl.
  rewrite sum_map_const_1, length_take. lia.
Qed.

Lemma levenshtein_boundary :
  exists m1 m2,
    for_range 0 (length seq1 + 1) (fun x m => mset m x 0 (Z.of_nat x))
      (zeros (length seq1 + 1) (length seq2 + 1)) = Ok m1 /\
    for_range 0 (length seq2 + 1) (fun y m => mset m 0 y (Z.of_nat y)) m1 = Ok m2 /\
    filled1 (done_at 1 1) m2.
Proof.
  set (r := length seq1 + 1). set (c := length seq2 + 1).
  destruct (for_range_inv
              (fun k m => shape r c m /\
                 forall i, i < k -> cell m i 0 = Some (Z.of_nat i))
              (fun x m => mset m x 0 (Z.of_nat x)) 0 r (zeros r c))
    as (m1 & Hm1 & Hsh1 & Hcol); [lia | | |].
  { split; [apply shape_zeros|]. intros i Hi. lia. }
  { intros k m Hk [Hsh Hprev].
    destruct (mset_spec r c m k 0 (Z.of_nat k) Hsh)
      as (m' & Hset & Hsh' & Hnew & Hold); [lia | unfold c; lia |].
    exists m'. split; [exact Hset|]. split; [exact Hsh'|].
    intros i Hi. destruct (decide (i = k)) as [->|Hne]; [exact Hnew|].
    rewrite Hold by congruence. apply Hprev. lia. }
  destruct (for_range_inv
              (fun k m => shape r c m /\
                 (forall i, i < r -> cell m i 0 = Some (Z.of_nat i)) /\
                 forall j, j < k -> cell m 0 j = Some (Z.of_nat j))
              (fun y m => mset m 0 y (Z.of_nat y)) 0 c m1)
    as (m2 & Hm2 & Hsh2 & Hcol2 & Hrow); [lia | | |].
  { split; [exact Hsh1|]. split; [exact Hcol|]. intros j Hj. lia. }
  { intros k m Hk (Hsh & Hc & Hprev).
    destruct (mset_spec r c m 0 k (Z.of_nat k) Hsh)
      as (m' & Hset & Hsh' & Hnew & Hold); [unfold r; lia | lia |].
    exists m'. split; [exact Hset|]. split; [exact Hsh'|]. split.
    - intros i Hi. destruct (decide ((i, 0) = (0, k))) as [Heq|Hne].
      + injection Heq as -> <-. exact Hnew.
      + rewrite Hold by exact Hne. apply Hc, Hi.
    - intros j Hj. destruct (decide (j = k)) as [->|Hne]; [exact Hnew|].
      rewrite Hold by congruence. apply Hprev. lia. }
  exists m1, m2. split; [exact Hm1|]. split; [exact Hm2|].
  split; [exact Hsh2|]. intros i j Hi Hj Hdone.
  assert (Hij : j = 0 \/ i = 0) by (unfold done_at in Hdone; lia).
  destruct Hij as [-> | ->].
  - rewrite unit_dist_col by exact Hi. apply Hcol2. unfold r. lia.
  - rewrite unit_dist_row by exact Hj. apply Hrow. unfold c. lia.
Qed.

Lemma levenshtein_cell_filled (x y : nat) (m : matrix) :
  1 <= x <= length seq1 -> 1 <= y <= length seq2 ->
  filled1 (done_at x y) m ->
  exists m', levenshtein_cell seq1 seq2 x y m = Ok m' /\
    filled1 (done_at x (S y)) m'.
Proof.
  intros Hx Hy (Hsh & Hcells).
  destruct x as [|i]; [lia|]. destruct y as [|j]; [lia|].
  destruct (take_snoc seq1 i) as (c1 & Hc1 & Ht1); [lia|].
  destruct (take_snoc seq2 j) as (c2 & Hc2 & Ht2); [lia|].
  assert (Hd := Hcells i j). assert (Hl := Hcells (S i) j).
  assert (Hu := Hcells i (S j)).
  specialize (Hd ltac:(lia) ltac:(lia) ltac:(unfold done_at; lia)).
  specialize (Hl ltac:(lia) ltac:(lia) ltac:(unfold done_at; lia)).
  specialize (Hu ltac:(lia) ltac:(lia) ltac:(unfold done_at; lia)).
  unfold levenshtein_cell.
  replace (S i - 1) with i by lia. replace (S j - 1) with j by lia.
  rewrite (index_lookup _ _ _ Hc1), (index_lookup _ _ _ Hc2). cbn [bind].
  rewrite (proj2 (mget_Ok _ _ _ _) Hd), (proj2 (mget_Ok _ _ _ _) Hl),
    (proj2 (mget_Ok _ _ _ _) Hu).
  assert (Hrec : D (S i) (S j) =
            if decide (c1 = c2)
            then min3 (D i (S j) + 1) (D i j) (D (S i) j + 1)
            else min3 (D i (S j) + 1) (D i j + 1) (D (S i) j + 1)).
  { rewrite Ht1, Ht2, dist_snoc_snoc, <- Ht1, <- Ht2. simpl.
    destruct (decide (c1 = c2)); unfold min3; lia. }
  assert (Hstep : forall v, v = D (S i) (S j) ->
            exists m', mset m (S i) (S j) v = Ok m' /\
              filled1 (done_at (S i) (S (S j))) m').
  { intros v ->.
    destruct (mset_spec _ _ m (S i) (S j) (D (S i) (S j)) Hsh)
      as (m' & Hset & Hsh' & Hnew & Hold); [lia | lia |].
    exists m'. split; [exact Hset|]. split; [exact Hsh'|].
    intros i' j' Hi' Hj' Hdone.
    destruct (decide ((i', j') = (S i, S j))) as [Heq|Hne].
    - injection Heq as -> ->. exact Hnew.
    - rewrite (Hold _ _ Hne). apply Hcells; [lia | lia |].
      unfold done_at in *.
      assert (~ (i' = S i /\ j' = S j)) by (intros [-> ->]; congruence). lia. }
  destruct (decide (c1 = c2)); cbn [bind]; apply Hstep; symmetry; exact Hrec.
Qed.

Lemma levenshtein_dist : levenshtein seq1 seq2 = Ok (dist unit_model seq1 seq2).
Proof.
  destruct levenshtein_boundary as (m1 & m2 & Hm1 & Hm2 & Hb).
  unfold levenshtein. cbv zeta. rewrite Hm1. cbn [bind]. rewrite Hm2. cbn [bind].
  destruct (for_range_inv (fun k => filled1 (done_at k 1))
              (fun x => for_range 1 (length seq2 + 1) (levenshtein_cell seq1 seq2 x))
              1 (length seq1 + 1) m2)
    as (m & Hloop & Hsh & Hcells); [lia | exact Hb | |].
  - intros k t Hk Ht.
    destruct (for_range_inv (fun l => filled1 (done_at k l))
                (levenshtein_cell seq1 seq2 k) 1 (length seq2 + 1) t)
      as (t' & Hinner & Hsh' & Hcells'); [lia | exact Ht | |].
    + intros l u Hl Hu. apply levenshtein_cell_filled; [lia | lia | exact Hu].
    + exists t'. split; [exact Hinner|]. split; [exact Hsh'|].
      intros i j Hi Hj Hdone. apply Hcells'; [exact Hi | exact Hj |].
      unfold done_at in *. lia.
  - rewrite Hloop. cbn [bind].
    replace (length seq1 + 1 - 1) with (length seq1) by lia.
    replace (length seq2 + 1 - 1) with (length seq2) by lia.
    apply mget_Ok. rewrite Hcells by (unfold done_at; lia).
    rewrite !firstn_all. reflexivity.
Qed.

End LevenshteinFill.

(** ** One more element in the target *)

Section Monotone.

Context {A : Type} `{EqDecision A}.
Context (cm : CostModel (A := A)).

Lemma dist_snoc_le (x y : list A) (e : A) :
  (dist cm x (y ++ [e]) <= dist cm x y + insert_cost cm e)%Z.
Proof.
  destruct x as [|cx a _] using rev_ind.
  - rewrite dist_nil_snoc. lia.
  - rewrite dist_snoc_snoc. unfold min3. lia.
Qed.

Lemma insert_cost_le_max (alphabet : list A) (e : A) :
  e ∈ alphabet -> (insert_cost cm e <= max_insert_cost cm alphabet)%Z.
Proof.
  unfold max_insert_cost. induction 1 as [e l|e c l _ IH]; simpl; lia.
Qed.

End Monotone.

(** * The properties of the specification *)

Section Claims.

Context {A : Type} `{EqDecision A}.

(** In exact arithmetic the cost of the script is the final cell. *)
Lemma roundtrip_cost_exact (cm : CostModel (A := A)) (x y : list A) :
  exists M P s,
    dynprog cm x y = Ok (M, P) /\
    edit_script x y M P = Ok s /\
    (forall str, explain_dynprog str x y M P = Ok (map (format_op str) s)) /\
    mget M (length x) (length y) = Ok (script_cost cm s).
Proof.
  destruct (dynprog_cells cm x y) as (M & P & Hdyn & HshM & HshP & Hcells).
  destruct (explain_total Match Insert Delete x y P) as [s Hs].
  { intros i j Hi Hj. apply (shape_cell _ _ _ _ _ HshP); lia. }
  exists M, P, s. split; [exact Hdyn|]. split; [exact Hs|]. split.
  - intros str. rewrite explain_dynprog_edit_script.
    unfold edit_script. rewrite Hs. reflexivity.
  - rewrite (edit_script_cost cm x y M P s); [| |exact Hs].
    + destruct (Hcells (length x) (length y)) as [HM _]; [lia | lia |].
      rewrite HM, !firstn_all. reflexivity.
    + intros i j Hi Hj. apply mget_Ok, Hcells; assumption.
Qed.

(** In exact arithmetic the cost matrix satisfies the recurrence. *)
Lemma dynprog_recurrence_exact (cm : CostModel (A := A)) (x y : list A) :
  exists M P,
    dynprog cm x y = Ok (M, P) /\
    mget M 0 0 = Ok 0%Z /\
    (forall i, 1 <= i <= length x ->
       mget M i 0 = Ok (sum (map (delete_cost cm) (take i x)))) /\
    (forall j, 1 <= j <= length y ->
       mget M 0 j = Ok (sum (map (insert_cost cm) (take j y)))) /\
    (forall i j cx cy, x !! i = Some cx -> y !! j = Some cy ->
       exists m l u,
         mget M i j = Ok m /\ mget M (S i) j = Ok l /\ mget M i (S j) = Ok u /\
         mget M (S i) (S j) =
           Ok (Z.min (m + match_cost cm cx cy)
                 (Z.min (l + insert_cost cm cy) (u + delete_cost cm cx)))).
Proof.
  destruct (dynprog_cells cm x y) as (M & P & Hdyn & _ & _ & Hcells).
  exists M, P. split; [exact Hdyn|]. split; [|split; [|split]].
  - destruct (Hcells 0 0) as [HM _]; [lia | lia |]. exact HM.
  - intros i Hi. destruct (Hcells i 0) as [HM _]; [lia | lia |].
    rewrite HM, take_0, dist_nil_r. reflexivity.
  - intros j Hj. destruct (Hcells 0 j) as [HM _]; [lia | lia |].
    rewrite HM, take_0, dist_nil_l. reflexivity.
  - intros i j cx cy Hcx Hcy.
    pose proof (lookup_lt_Some _ _ _ Hcx) as Hi.
    pose proof (lookup_lt_Some _ _ _ Hcy) as Hj.
    destruct (Hcells i j) as [Hm _]; [lia | lia |].
    destruct (Hcells (S i) j) as [Hl _]; [lia | lia |].
    destruct (Hcells i (S j)) as [Hu _]; [lia | lia |].
    destruct (Hcells (S i) (S j)) as [Hn _]; [lia | lia |].
    eexists _, _, _. split; [exact Hm|]. split; [exact Hl|]. split; [exact Hu|].
    rewrite Hn. f_equal.
    rewrite (take_S_r _ _ _ Hcx), (take_S_r _ _ _ Hcy), dist_snoc_snoc.
    unfold min3. lia.
Qed.


(** C4 (replay), as the program has it.  Applying the operations of the edit
    script to [x] from left to right, a Match writing the target element it
    records (a copy of the source element when the two are equal, a
    substitution otherwise), an Insert writing its element and a Delete
    skipping a source element, gives [y] exactly; when no Match of the
    script pairs unequal elements, copying the source element on Match gives
    [y] as well. *)
Theorem edit_script_replays (cm : CostModel (A := A)) (x y : list A) :
  exists M P s,
    dynprog cm x y = Ok (M, P) /\
    edit_script x y M P = Ok s /\
    replay s x = Some y /\
    (no_substitution s -> replay_copy s x = Some y).
Proof.
  destruct (dynprog_cells cm x y) as (M & P & Hdyn & _ & HshP & _).
  destruct (explain_total Match Insert Delete x y P) as [s Hs].
  { intros i j Hi Hj. apply (shape_cell _ _ _ _ _ HshP); lia. }
  exists M, P, s. split; [exact Hdyn|]. split; [exact Hs|].
  apply (edit_script_replay x y M P s Hs).
Qed.

(** In exact arithmetic: the distance when a sequence is empty. *)
Lemma edit_distance_base_cases_exact (cm : CostModel (A := A)) :
  edit_distance cm [] [] = Ok 0%Z /\
  (forall x, edit_distance cm x [] = Ok (sum (map (delete_cost cm) x))) /\
  (forall y, edit_distance cm [] y = Ok (sum (map (insert_cost cm) y))).
Proof.
  split; [|split].
  - rewrite edit_distance_dist. reflexivity.
  - intros x. rewrite edit_distance_dist, dist_nil_r. reflexivity.
  - intros y. rewrite edit_distance_dist, dist_nil_l. reflexivity.
Qed.

(** C6 (cost validation), as the program has it.  [dynprog] validates no
    cost: for every pair of sequences and every cost model, whatever the
    sign of its costs, it returns two matrices of shape
    [(nx + 1) x (ny + 1)]. *)
Theorem dynprog_total (cm : CostModel (A := A)) (x y : list A) :
  exists M P,
    dynprog cm x y = Ok (M, P) /\
    shape (length x + 1) (length y + 1) M /\
    shape (length x + 1) (length y + 1) P.
Proof.
  destruct (dynprog_cells cm x y) as (M & P & Hdyn & HshM & HshP & _).
  exists M, P. auto.
Qed.

(** C7 (shape check), as the program has it.  [explain_dynprog] checks no
    shape and has no error of its own: whatever the shape [r x c] of [P], it
    returns its list of operations when [P] has at least [nx + 1] rows and
    [ny + 1] columns, and also when [x] or [y] is empty, where the walk
    reads no cell at all; when it fails, it is with the [IndexError] of a
    read. *)
Theorem explain_dynprog_no_shape_check (str : A -> string) (x y : list A)
    (M P : matrix) (r c : nat) :
  shape r c P ->
  ((length x < r /\ length y < c) \/ x = [] \/ y = [] ->
   exists s, explain_dynprog str x y M P = Ok s) /\
  (forall e, explain_dynprog str x y M P = Err e -> e = IndexError).
Proof.
  intros Hsh. split.
  - intros Hcase. unfold explain_dynprog. apply explain_total.
    intros i j Hi Hj. destruct Hcase as [[Hr Hc] | [-> | ->]].
    + apply (shape_cell _ _ _ _ _ Hsh); lia.
    + simpl in Hi. lia.
    + simpl in Hj. lia.
  - intros e. unfold explain_dynprog. apply explain_Err.
Qed.

(** In exact arithmetic: one more element in the target. *)
Lemma edit_distance_append_target_exact (cm : CostModel (A := A)) (x y : list A)
    (e : A) (alphabet : list A) :
  e ∈ alphabet ->
  exists d d',
    edit_distance cm x y = Ok d /\
    edit_distance cm x (y ++ [e]) = Ok d' /\
    (d' <= d + insert_cost cm e)%Z /\
    (d' <= d + max_insert_cost cm alphabet)%Z.
Proof.
  intros He. exists (dist cm x y), (dist cm x (y ++ [e])).
  split; [apply edit_distance_dist|]. split; [apply edit_distance_dist|].
  pose proof (dist_snoc_le cm x y e).
  pose proof (insert_cost_le_max cm alphabet e He). lia.
Qed.

(** C10 ([levenshtein]).  [levenshtein] returns the final cell
    [M[len(seq1)][len(seq2)]] of [dynprog] run with the unit cost model:
    insertion 1, deletion 1, match 0 on equal elements and 1 otherwise. *)
Theorem levenshtein_unit_dynprog (seq1 seq2 : list A) :
  exists M P d,
    dynprog unit_model seq1 seq2 = Ok (M, P) /\
    mget M (length seq1) (length seq2) = Ok d /\
    levenshtein seq1 seq2 = Ok d.
Proof.
  destruct (dynprog_cells unit_model seq1 seq2) as (M & P & Hdyn & _ & _ & Hcells).
  exists M, P, (dist unit_model seq1 seq2). split; [exact Hdyn|]. split.
  - destruct (Hcells (length seq1) (length seq2)) as [HM _]; [lia | lia |].
    rewrite HM, !firstn_all. reflexivity.
  - apply levenshtein_dist.
Qed.

End Claims.

(** C8 ([lev] against [dynprog]).  The program's [lev] does not compute the
    recurrence: its first test returns the insertion cost of [b] as soon as
    [a] is non-empty.  From "a" to the empty sequence, under the default
    costs, it returns 0 where the final cell of [dynprog] is 2, the cost of
    deleting "a"; and on two empty sequences it never returns, where the
    final cell of [dynprog] is 0. *)
Theorem lev_disagrees_with_dynprog (depth : nat) :
  lev (S depth) default_model word_a [] = Ok 0%Z /\
  edit_distance default_model word_a [] = Ok 2%Z /\
  lev depth default_model (@nil Ascii.ascii) [] = Err RecursionError /\
  edit_distance default_model (@nil Ascii.ascii) [] = Ok 0%Z.
Proof.
  split; [|split; [|split]].
  - rewrite lev_nonempty by discriminate. reflexivity.
  - reflexivity.
  - apply lev_empty_empty.
  - reflexivity.
Qed.

(** ** Instances on concrete words *)

(** A tie between Match and Insert: in the last cell of "a" against "aa"
    both candidates cost 1, and the trace matrix records Match. *)
Example dynprog_a_aa :
  dynprog default_model word_a word_aa =
  Ok ([[0; 1; 2]; [2; 0; 1]], [[0; 1; 1]; [2; 0; 0]])%Z.
Proof. reflexivity. Qed.

(** The matrices and the script of the program's own example. *)
Example dynprog_sunda_satu :
  dynprog default_model sunda satu =
  Ok ([[0; 1; 2; 3; 4]; [2; 0; 1; 2; 3]; [4; 2; 3; 4; 2];
       [6; 4; 5; 6; 4]; [8; 6; 7; 8; 6]; [10; 8; 6; 7; 8]],
      [[0; 1; 1; 1; 1]; [2; 0; 1; 1; 1]; [2; 2; 1; 1; 0];
       [2; 2; 1; 1; 2]; [2; 2; 1; 1; 2]; [2; 2; 0; 1; 1]])%Z.
Proof. reflexivity. Qed.

Example explain_sunda_satu :
  (let* (M, P) := dynprog default_model sunda satu in
   explain_dynprog str_char sunda satu M P) =
  Ok [" match s and s "; "delete u"; "delete n"; "delete d";
      " match a and a "; "insert t"; "insert u"]%string.
Proof. reflexivity. Qed.

Example levenshtein_sunda_satu : levenshtein sunda satu = Ok 4%Z.
Proof. reflexivity. Qed.

(** [levenshtein] is not the distance of the default costs. *)
Example levenshtein_not_default :
  levenshtein word_a [] = Ok 1%Z /\
  edit_distance default_model word_a [] = Ok 2%Z.
Proof. split; reflexivity. Qed.

(** Under unit costs the script from "a" to "b" is one Match, a
    substitution; copying the source element on it gives "a", not "b". *)
Lemma replay_copy_fails_on_substitution :
  dynprog unit_model word_a word_b =
    Ok ([[0; 1]; [1; 1]], [[0; 1]; [2; 0]])%Z /\
  edit_script word_a word_b [[0; 1]; [1; 1]]%Z [[0; 1]; [2; 0]]%Z =
    Ok [Match "a"%char "b"%char] /\
  replay_copy [Match "a"%char "b"%char] word_a = Some word_a /\
  replay_copy [Match "a"%char "b"%char] word_a <> Some word_b.
Proof.
  split; [reflexivity|]. split; [reflexivity|]. split; [reflexivity|].
  discriminate.
Qed.

(** With a negative deletion cost [dynprog] returns its matrices all the
    same, a negative cost in the first column. *)
Lemma dynprog_accepts_negative_cost :
  (delete_cost negative_model "a"%char < 0)%Z /\
  dynprog negative_model word_a [] = Ok ([[0]; [-1]], [[0]; [2]])%Z.
Proof. split; reflexivity. Qed.

(** With a trace matrix of shape 3 x 3 for two sequences of length 1
    [explain_dynprog] returns a list of operations; with an empty trace
    matrix it fails inside the loop, on the read of [P[1, 1]]. *)
Lemma explain_dynprog_accepts_wrong_shape :
  shape 3 3 (zeros 3 3) /\
  (3, 3) <> (length word_a + 1, length word_a + 1) /\
  explain_dynprog str_char word_a word_a (zeros 2 2) (zeros 3 3) =
    Ok [" match a and a "]%string /\
  explain_dynprog str_char word_a word_a (zeros 2 2) [] = Err IndexError.
Proof.
  split; [apply shape_zeros|]. split; [discriminate|].
  split; reflexivity.
Qed.

Lemma explain_dynprog_no_shape_check_3x3 :
  shape 3 3 (zeros 3 3) /\
  ((length word_a < 3 /\ length word_a < 3) \/ word_a = [] \/ word_a = []) /\
  exists s, explain_dynprog str_char word_a word_a (zeros 2 2) (zeros 3 3) = Ok s.
Proof.
  assert (Hsh : shape 3 3 (zeros 3 3)).
  { split; [reflexivity|]. repeat constructor. }
  assert (Hlen : (length word_a < 3 /\ length word_a < 3)
                 \/ word_a = [] \/ word_a = []).
  { left. simpl. lia. }
  split; [exact Hsh|]. split; [exact Hlen|].
  exact (proj1 (explain_dynprog_no_shape_check str_char word_a word_a
                  (zeros 2 2) (zeros 3 3) 3 3 Hsh) Hlen).
Defined.

(** * Further properties of the program *)

(** ** The recurrence, by induction on both sequences *)

Section RecurrenceFacts.

Context {A : Type} `{EqDecision A}.

Lemma dist_rev_nil_cons (cm : CostModel (A := A)) (cy : A) (b : list A) :
  dist_rev cm [] (cy :: b) = (dist_rev cm [] b + insert_cost cm cy)%Z.
Proof. reflexivity. Qed.

Lemma dist_rev_cons_nil (cm : CostModel (A := A)) (cx : A) (a : list A) :
  dist_rev cm (cx :: a) [] = (dist_rev cm a [] + delete_cost cm cx)%Z.
Proof. reflexivity. Qed.

Lemma dist_rev_cons_cons (cm : CostModel (A := A)) (cx cy : A) (a b : list A) :
  dist_rev cm (cx :: a) (cy :: b) =
  min3 (dist_rev cm a b + match_cost cm cx cy)
       (dist_rev cm (cx :: a) b + insert_cost cm cy)
       (dist_rev cm a (cy :: b) + delete_cost cm cx).
Proof. reflexivity. Qed.

(** The induction the recurrence follows: a cell after its three
    neighbours. *)
Lemma prefix_pair_ind (Q : list A -> list A -> Prop) :
  Q [] [] ->
  (forall cy b, Q [] b -> Q [] (cy :: b)) ->
  (forall cx a, Q a [] -> Q (cx :: a) []) ->
  (forall cx a cy b, Q a b -> Q (cx :: a) b -> Q a (cy :: b) ->
     Q (cx :: a) (cy :: b)) ->
  forall a b, Q a b.
Proof.
  intros Hnn Hnc Hcn Hcc a.
  induction a as [|cx a IHa]; intros b; induction b as [|cy b IHb]; auto.
Qed.

Lemma dist_rev_nonneg (cm : CostModel (A := A)) (a b : list A) :
  nonneg_costs cm -> (0 <= dist_rev cm a b)%Z.
Proof.
  intros (Hi & Hd & Hm). revert a b. apply prefix_pair_ind.
  - reflexivity.
  - intros cy b IH. rewrite dist_rev_nil_cons. specialize (Hi cy). lia.
  - intros cx a IH. rewrite dist_rev_cons_nil. specialize (Hd cx). lia.
  - intros cx a cy b IH1 IH2 IH3. rewrite dist_rev_cons_cons.
    specialize (Hi cy). specialize (Hd cx). specialize (Hm cx cy).
    unfold min3. lia.
Qed.

Lemma dist_rev_mono (cm cm' : CostModel (A := A)) (a b : list A) :
  costs_le cm cm' -> (dist_rev cm a b <= dist_rev cm' a b)%Z.
Proof.
  intros (Hi & Hd & Hm). revert a b. apply prefix_pair_ind.
  - reflexivity.
  - intros cy b IH. rewrite !dist_rev_nil_cons. specialize (Hi cy). lia.
  - intros cx a IH. rewrite !dist_rev_cons_nil. specialize (Hd cx). lia.
  - intros cx a cy b IH1 IH2 IH3. rewrite !dist_rev_cons_cons.
    specialize (Hi cy). specialize (Hd cx). specialize (Hm cx cy).
    unfold min3. lia.
Qed.

(** Editing [b] into [a] is editing [a] into [b] with the roles of the
    costs exchanged. *)
Lemma dist_rev_exchange (cm cm' : CostModel (A := A)) (a b : list A) :
  (forall c, insert_cost cm' c = delete_cost cm c) ->
  (forall c, delete_cost cm' c = insert_cost cm c) ->
  (forall cx cy, match_cost cm' cx cy = match_cost cm cy cx) ->
  dist_rev cm' a b = dist_rev cm b a.
Proof.
  intros Hi Hd Hm. revert a b. apply prefix_pair_ind.
  - reflexivity.
  - intros cy b IH. rewrite dist_rev_nil_cons, dist_rev_cons_nil, IH, Hi.
    reflexivity.
  - intros cx a IH. rewrite dist_rev_nil_cons, dist_rev_cons_nil, IH, Hd.
    reflexivity.
  - intros cx a cy b IH1 IH2 IH3.
    rewrite !dist_rev_cons_cons, IH1, IH2, IH3, Hi, Hd, Hm.
    unfold min3. lia.
Qed.

Lemma dist_rev_diag (cm : CostModel (A := A)) (a : list A) :
  nonneg_costs cm -> (forall c, match_cost cm c c = 0%Z) ->
  dist_rev cm a a = 0%Z.
Proof.
  intros Hnn Hm. induction a as [|c a IH]; [reflexivity|].
  pose proof (dist_rev_nonneg cm (c :: a) (c :: a) Hnn) as Hge.
  rewrite dist_rev_cons_cons, IH, Hm in *.
  unfold min3 in *. lia.
Qed.

(** Under unit costs: between the difference and the larger of the two
    lengths, and 0 only for equal sequences. *)
Lemma unit_dist_rev_bounds (a b : list A) :
  let d := dist_rev unit_model a b in
  let la := Z.of_nat (length a) in
  let lb := Z.of_nat (length b) in
  (la - lb <= d /\ lb - la <= d /\ d <= Z.max la lb)%Z.
Proof.
  cbv zeta. revert a b. apply prefix_pair_ind.
  - simpl. lia.
  - intros cy b IH. rewrite dist_rev_nil_cons. simpl in *. lia.
  - intros cx a IH. rewrite dist_rev_cons_nil. simpl in *. lia.
  - intros cx a cy b IH1 IH2 IH3. rewrite dist_rev_cons_cons.
    simpl insert_cost. simpl delete_cost. simpl match_cost.
    simpl length in *. unfold min3.
    destruct (decide (cx = cy)); lia.
Qed.

Lemma unit_dist_rev_zero (a b : list A) :
  dist_rev unit_model a b = 0%Z -> a = b.
Proof.
  revert a b. apply (prefix_pair_ind
    (fun a b => dist_rev unit_model a b = 0%Z -> a = b)).
  - reflexivity.
  - intros cy b IH Hz. pose proof (unit_dist_rev_bounds [] (cy :: b)) as Hb.
    cbv zeta in Hb. simpl length in Hb. lia.
  - intros cx a IH Hz. pose proof (unit_dist_rev_bounds (cx :: a) []) as Hb.
    cbv zeta in Hb. simpl length in Hb. lia.
  - intros cx a cy b IH1 IH2 IH3 Hz. rewrite dist_rev_cons_cons in Hz.
    pose proof (unit_dist_rev_bounds a b) as Hab.
    pose proof (unit_dist_rev_bounds (cx :: a) b) as Hcab.
    pose proof (unit_dist_rev_bounds a (cy :: b)) as Hacb.
    cbv zeta in Hab, Hcab, Hacb.
    simpl insert_cost in Hz. simpl delete_cost in Hz. simpl match_cost in Hz.
    assert (Hnn1 : (0 <= dist_rev unit_model (cx :: a) b)%Z) by lia.
    assert (Hnn2 : (0 <= dist_rev unit_model a (cy :: b))%Z) by lia.
    assert (Hnn3 : (0 <= dist_rev unit_model a b)%Z) by lia.
    unfold min3 in Hz.
    destruct (decide (cx = cy)) as [->|Hne]; [|lia].
    f_equal. apply IH1. lia.
Qed.

Lemma dist_snoc_le_source (cm : CostModel (A := A)) (x y : list A) (e : A) :
  (dist cm (x ++ [e]) y <= dist cm x y + delete_cost cm e)%Z.
Proof.
  destruct y as [|cy b _] using rev_ind.
  - rewrite dist_snoc_nil. lia.
  - rewrite dist_snoc_snoc. unfold min3. lia.
Qed.

Lemma dist_le_delete_insert (cm : CostModel (A := A)) (x y : list A) :
  (dist cm x y <= dist cm x [] + dist cm [] y)%Z.
Proof.
  induction y as [|cy b IH] using rev_ind.
  - rewrite dist_nil_nil. lia.
  - pose proof (dist_snoc_le cm x b cy). rewrite dist_nil_snoc. lia.
Qed.

End RecurrenceFacts.

(** ** Alignments *)

Section Alignments.

Context {A : Type} `{EqDecision A}.

(** The last operation of an alignment accounts for the last elements. *)
Lemma aligns_snoc (s : list (EditOp (A := A))) (o : EditOp) (x y : list A) :
  aligns (s ++ [o]) x y ->
  match o with
  | Match cx cy =>
      exists x' y', x = x' ++ [cx] /\ y = y' ++ [cy] /\ aligns s x' y'
  | Insert cy => exists y', y = y' ++ [cy] /\ aligns s x y'
  | Delete cx => exists x', x = x' ++ [cx] /\ aligns s x' y
  end.
Proof.
  revert x y. induction s as [|o' s IH]; intros x y Hal.
  - destruct o as [cx cy|cy|cx]; simpl in Hal.
    + destruct x as [|cx' x]; [contradiction|].
      destruct y as [|cy' y]; [contradiction|].
      destruct Hal as (-> & -> & -> & ->). exists [], []. simpl. auto.
    + destruct y as [|cy' y]; [contradiction|].
      destruct Hal as (-> & -> & ->). exists []. simpl. auto.
    + destruct x as [|cx' x]; [contradiction|].
      destruct Hal as (-> & -> & ->). exists []. simpl. auto.
  - destruct o' as [ox oy|oy|ox]; simpl in Hal.
    + destruct x as [|cx' x]; [contradiction|].
      destruct y as [|cy' y]; [contradiction|].
      destruct Hal as (-> & -> & Hal). apply IH in Hal.
      destruct o as [cx cy|cy|cx].
      * destruct Hal as (x' & y' & -> & -> & Hal).
        exists (cx' :: x'), (cy' :: y'). simpl. auto.
      * destruct Hal as (y' & -> & Hal). exists (cy' :: y'). simpl. auto.
      * destruct Hal as (x' & -> & Hal). exists (cx' :: x'). simpl. auto.
    + destruct y as [|cy' y]; [contradiction|].
      destruct Hal as (-> & Hal). apply IH in Hal.
      destruct o as [cx cy|cy|cx].
      * destruct Hal as (x' & y' & -> & -> & Hal).
        exists x', (cy' :: y'). simpl. auto.
      * destruct Hal as (y' & -> & Hal). exists (cy' :: y'). simpl. auto.
      * destruct Hal as (x' & -> & Hal). exists x'. simpl. auto.
    + destruct x as [|cx' x]; [contradiction|].
      destruct Hal as (-> & Hal). apply IH in Hal.
      destruct o as [cx cy|cy|cx].
      * destruct Hal as (x' & y' & -> & -> & Hal).
        exists (cx' :: x'), y'. simpl. auto.
      * destruct Hal as (y' & -> & Hal). exists y'. simpl. auto.
      * destruct Hal as (x' & -> & Hal). exists (cx' :: x'). simpl. auto.
Qed.

(** No alignment is cheaper than the value of the recurrence. *)
Lemma dist_le_alignment (cm : CostModel (A := A)) (s : list EditOp)
    (x y : list A) :
  aligns s x y -> (dist cm x y <= script_cost cm s)%Z.
Proof.
  revert x y. induction s as [|o s IH] using rev_ind; intros x y Hal.
  - destruct Hal as [-> ->]. rewrite dist_nil_nil. reflexivity.
  - apply aligns_snoc in Hal. rewrite script_cost_app.
    unfold script_cost at 2. simpl map. rewrite sum_cons, sum_nil.
    destruct o as [cx cy|cy|cx]; simpl op_cost.
    + destruct Hal as (x' & y' & -> & -> & Hal). specialize (IH _ _ Hal).
      rewrite dist_snoc_snoc. unfold min3. lia.
    + destruct Hal as (y' & -> & Hal). specialize (IH _ _ Hal).
      pose proof (dist_snoc_le cm x y' cy). lia.
    + destruct Hal as (x' & -> & Hal). specialize (IH _ _ Hal).
      pose proof (dist_snoc_le_source cm x' y cx). lia.
Qed.

Lemma aligns_inserts (b : list A) (s : list EditOp) (x y : list A) :
  aligns s x y -> aligns (map Insert b ++ s) x (b ++ y).
Proof. intros Hal. induction b as [|cy b IH]; simpl; auto. Qed.

Lemma aligns_deletes (a : list A) (s : list EditOp) (x y : list A) :
  aligns s x y -> aligns (map Delete a ++ s) (a ++ x) y.
Proof. intros Hal. induction a as [|cx a IH]; simpl; auto. Qed.

(** An alignment has one operation per element at least, and no more
    operations than elements. *)
Lemma aligns_length (s : list (EditOp (A := A))) (x y : list A) :
  aligns s x y ->
  length x <= length s /\ length y <= length s /\
  length s <= length x + length y.
Proof.
  revert x y. induction s as [|o s IH]; intros x y Hal; simpl in Hal.
  - destruct Hal as [-> ->]. simpl. lia.
  - destruct o as [cx cy|cy|cx].
    + destruct x as [|cx' x]; [contradiction|].
      destruct y as [|cy' y]; [contradiction|].
      destruct Hal as (_ & _ & Hal). apply IH in Hal. simpl. lia.
    + destruct y as [|cy' y]; [contradiction|].
      destruct Hal as (_ & Hal). apply IH in Hal. simpl. lia.
    + destruct x as [|cx' x]; [contradiction|].
      destruct Hal as (_ & Hal). apply IH in Hal. simpl. lia.
Qed.

(** Whatever the trace matrix holds, the walk returns an alignment. *)
Lemma edit_script_aligns (x y : list A) (M P : matrix) (s : list EditOp) :
  edit_script x y M P = Ok s -> aligns s x y.
Proof.
  unfold edit_script. intros Hs.
  apply explain_Ok in Hs as (ix & iy & L & Hwalk & ->).
  apply (backtrack_rule Match Insert Delete x y P
           (fun ix iy L => aligns (rev L) (drop ix x) (drop iy y)))
    in Hwalk as (Hal & _).
  - rewrite <- (take_drop ix x) at 2. rewrite <- (take_drop iy y) at 2.
    apply aligns_inserts, aligns_deletes, Hal.
  - intros i j L' cx cy Hcx Hcy _ Hal.
    rewrite rev_unit, (drop_S _ _ _ Hcx), (drop_S _ _ _ Hcy). simpl. auto.
  - intros i j L' cy Hcy _ Hal.
    rewrite rev_unit, (drop_S _ _ _ Hcy). simpl. auto.
  - intros i j L' cx p Hcx _ _ _ Hal.
    rewrite rev_unit, (drop_S _ _ _ Hcx). simpl. auto.
  - rewrite !drop_all. simpl. auto.
Qed.

(** On the trace matrix of the recurrence, a model in which a substitution
    is dearer than a deletion and an insertion never records a Match for
    two different elements. *)
Lemma trace_match_equal (cm : CostModel (A := A)) (x y : list A) (i j : nat)
    (cx cy : A) :
  substitution_dearer cm ->
  x !! i = Some cx -> y !! j = Some cy ->
  trace cm (take (S i) x) (take (S j) y) = 0%Z -> cx = cy.
Proof.
  intros Hdear Hcx Hcy Htr.
  destruct (decide (cx = cy)) as [Heq|Hne]; [exact Heq|]. exfalso.
  rewrite (take_S_r _ _ _ Hcx), (take_S_r _ _ _ Hcy), trace_snoc_snoc in Htr.
  set (cM := (dist cm (take i x) (take j y) + match_cost cm cx cy)%Z) in *.
  set (cI := (dist cm (take i x ++ [cx]) (take j y) + insert_cost cm cy)%Z) in *.
  set (cD := (dist cm (take i x) (take j y ++ [cy]) + delete_cost cm cx)%Z) in *.
  pose proof (argmin3_cases cM cI cD) as Hcases. cbv zeta in Hcases.
  pose proof (dist_snoc_le_source cm (take i x) (take j y) cx) as Hle.
  specialize (Hdear cx cy Hne). unfold cM, cI in *. lia.
Qed.

Lemma edit_script_no_substitution (cm : CostModel (A := A)) (x y : list A)
    (M P : matrix) (s : list EditOp) :
  substitution_dearer cm ->
  (forall i j, i <= length x -> j <= length y ->
     cell P i j = Some (trace cm (take i x) (take j y))) ->
  edit_script x y M P = Ok s -> no_substitution s.
Proof.
  unfold edit_script. intros Hdear Hcells Hs.
  apply explain_Ok in Hs as (ix & iy & L & Hwalk & ->).
  apply (backtrack_rule Match Insert Delete x y P
           (fun ix iy L => no_substitution L)) in Hwalk as (Hns & _).
  - unfold no_substitution in *. rewrite !Forall_app. split; [|split].
    + induction (take iy y); simpl; constructor; auto.
    + induction (take ix x); simpl; constructor; auto.
    + apply Forall_rev, Hns.
  - intros i j L' cx cy Hcx Hcy Hp Hns.
    unfold no_substitution in *. rewrite Forall_app. split; [exact Hns|].
    constructor; [|constructor].
    apply (trace_match_equal cm x y i j cx cy Hdear Hcx Hcy).
    pose proof (lookup_lt_Some _ _ _ Hcx). pose proof (lookup_lt_Some _ _ _ Hcy).
    rewrite Hcells in Hp by lia. congruence.
  - intros i j L' cy Hcy _ Hns.
    unfold no_substitution in *. rewrite Forall_app. split; [exact Hns|].
    constructor; [exact I | constructor].
  - intros i j L' cx p Hcx _ _ _ Hns.
    unfold no_substitution in *. rewrite Forall_app. split; [exact Hns|].
    constructor; [exact I | constructor].
  - constructor.
Qed.

End Alignments.

(** ** [dynprog]: the trace matrix, the cells, the distance *)

Section MoreDynprog.

Context {A : Type} `{EqDecision A}.

(** X1 (trace boundary).  In the trace matrix of [dynprog] the corner
    [P[0][0]] is 0, every other entry of column 0 is the code of delete
    and every other entry of row 0 the code of insert. *)
Theorem dynprog_trace_boundary (cm : CostModel (A := A)) (x y : list A)
    (i j : nat) :
  i <= length x -> j <= length y -> i = 0 \/ j = 0 ->
  exists M P p,
    dynprog cm x y = Ok (M, P) /\ mget P i j = Ok p /\
    p = (if decide (j = 0)
         then if decide (i = 0) then 0%Z else dict_op op_delete
         else dict_op op_insert).
Proof.
  intros Hi Hj Hij.
  destruct (dynprog_cells cm x y) as (M & P & Hdyn & _ & _ & Hcells).
  destruct (Hcells i j Hi Hj) as [_ HP].
  eexists M, P, _. split; [exact Hdyn|]. split; [exact HP|].
  destruct (decide (j = 0)) as [->|Hj0].
  - rewrite take_0. destruct (decide (i = 0)) as [->|Hi0]; [reflexivity|].
    destruct i as [|i]; [congruence|].
    destruct (take_snoc x i) as (cx & _ & ->); [lia|]. apply trace_snoc_nil.
  - assert (i = 0) as -> by (destruct Hij; [assumption | contradiction]).
    rewrite take_0. destruct j as [|j]; [congruence|].
    destruct (take_snoc y j) as (cy & _ & ->); [lia|]. apply trace_nil_snoc.
Qed.

(** X2 (operation codes).  Every entry of the trace matrix of [dynprog] is
    one of the three operation codes 0, 1, 2. *)
Theorem dynprog_trace_codes (cm : CostModel (A := A)) (x y : list A)
    (i j : nat) :
  i <= length x -> j <= length y ->
  exists M P p,
    dynprog cm x y = Ok (M, P) /\ mget P i j = Ok p /\
    (p = dict_op op_match \/ p = dict_op op_insert \/ p = dict_op op_delete).
Proof.
  intros Hi Hj.
  destruct (dynprog_cells cm x y) as (M & P & Hdyn & _ & _ & Hcells).
  destruct (Hcells i j Hi Hj) as [_ HP].
  eexists M, P, _. split; [exact Hdyn|]. split; [exact HP|].
  destruct i as [|i]; destruct j as [|j].
  - left. reflexivity.
  - destruct (take_snoc y j) as (cy & _ & Hty); [lia|].
    rewrite Hty, take_0, trace_nil_snoc. auto.
  - destruct (take_snoc x i) as (cx & _ & Htx); [lia|].
    rewrite Htx, take_0, trace_snoc_nil. auto.
  - destruct (take_snoc x i) as (cx & _ & Htx); [lia|].
    destruct (take_snoc y j) as (cy & _ & Hty); [lia|].
    rewrite Htx, Hty, trace_snoc_snoc.
    match goal with |- context [argmin [?a; ?b; ?c]] =>
      pose proof (argmin3_cases a b c) as Hcases; cbv zeta in Hcases;
      set (p := argmin [a; b; c]) in *
    end.
    simpl dict_op. lia.
Qed.

(** In exact arithmetic a cell is the distance of two prefixes. *)
Lemma dynprog_cell_prefix_distance_exact (cm : CostModel (A := A)) (x y : list A)
    (i j : nat) :
  i <= length x -> j <= length y ->
  exists M P d,
    dynprog cm x y = Ok (M, P) /\ mget M i j = Ok d /\
    edit_distance cm (take i x) (take j y) = Ok d.
Proof.
  intros Hi Hj.
  destruct (dynprog_cells cm x y) as (M & P & Hdyn & _ & _ & Hcells).
  destruct (Hcells i j Hi Hj) as [HM _].
  eexists M, P, _. split; [exact Hdyn|]. split; [exact HM|].
  apply edit_distance_dist.
Qed.

(** In exact arithmetic no alignment is cheaper than the script. *)
Lemma edit_script_optimal_exact (cm : CostModel (A := A)) (x y : list A)
    (s' : list EditOp) :
  aligns s' x y ->
  exists M P s,
    dynprog cm x y = Ok (M, P) /\
    edit_script x y M P = Ok s /\
    aligns s x y /\
    (script_cost cm s <= script_cost cm s')%Z.
Proof.
  intros Hal.
  destruct (dynprog_cells cm x y) as (M & P & Hdyn & _ & HshP & Hcells).
  destruct (explain_total Match Insert Delete x y P) as [s Hs].
  { intros i j Hi Hj. apply (shape_cell _ _ _ _ _ HshP); lia. }
  exists M, P, s. split; [exact Hdyn|]. split; [exact Hs|].
  split; [exact (edit_script_aligns x y M P s Hs)|].
  rewrite (edit_script_cost cm x y M P s); [| |exact Hs].
  - apply dist_le_alignment, Hal.
  - intros i j Hi Hj. apply mget_Ok, Hcells; assumption.
Qed.

(** In exact arithmetic: no negative cost, no negative cell. *)
Lemma dynprog_cells_nonneg_exact (cm : CostModel (A := A)) (x y : list A)
    (i j : nat) :
  nonneg_costs cm -> i <= length x -> j <= length y ->
  exists M P d,
    dynprog cm x y = Ok (M, P) /\ mget M i j = Ok d /\ (0 <= d)%Z.
Proof.
  intros Hnn Hi Hj.
  destruct (dynprog_cells cm x y) as (M & P & Hdyn & _ & _ & Hcells).
  destruct (Hcells i j Hi Hj) as [HM _].
  eexists M, P, _. split; [exact Hdyn|]. split; [exact HM|].
  apply dist_rev_nonneg, Hnn.
Qed.

(** In exact arithmetic: a sequence against itself. *)
Lemma edit_distance_identity_exact (cm : CostModel (A := A)) (x : list A) :
  nonneg_costs cm -> (forall c, match_cost cm c c = 0%Z) ->
  edit_distance cm x x = Ok 0%Z.
Proof.
  intros Hnn Hm. rewrite edit_distance_dist. unfold dist.
  rewrite dist_rev_diag by assumption. reflexivity.
Qed.

(** X7 (the opposite direction).  Editing [y] into [x] with insertion and
    deletion costs exchanged, and the match cost read from the other side,
    costs what editing [x] into [y] costs. *)
Theorem edit_distance_swap (cm : CostModel (A := A)) (x y : list A) :
  edit_distance (swap_model cm) y x = edit_distance cm x y.
Proof.
  rewrite !edit_distance_dist. unfold dist. f_equal.
  apply dist_rev_exchange; reflexivity.
Qed.

(** In exact arithmetic: one more element in the source. *)
Lemma edit_distance_append_source_exact (cm : CostModel (A := A)) (x y : list A)
    (e : A) :
  exists d d',
    edit_distance cm x y = Ok d /\
    edit_distance cm (x ++ [e]) y = Ok d' /\
    (d' <= d + delete_cost cm e)%Z.
Proof.
  exists (dist cm x y), (dist cm (x ++ [e]) y).
  split; [apply edit_distance_dist|]. split; [apply edit_distance_dist|].
  apply dist_snoc_le_source.
Qed.

(** In exact arithmetic: delete all, insert all. *)
Lemma edit_distance_upper_bound_exact (cm : CostModel (A := A)) (x y : list A) :
  exists d,
    edit_distance cm x y = Ok d /\
    (d <= sum (map (delete_cost cm) x) + sum (map (insert_cost cm) y))%Z.
Proof.
  exists (dist cm x y). split; [apply edit_distance_dist|].
  rewrite <- dist_nil_r, <- dist_nil_l. apply dist_le_delete_insert.
Qed.

(** In exact arithmetic: dearer costs, larger distance. *)
Lemma edit_distance_costs_monotone_exact (cm cm' : CostModel (A := A))
    (x y : list A) :
  costs_le cm cm' ->
  exists d d',
    edit_distance cm x y = Ok d /\ edit_distance cm' x y = Ok d' /\
    (d <= d')%Z.
Proof.
  intros Hle. exists (dist cm x y), (dist cm' x y).
  split; [apply edit_distance_dist|]. split; [apply edit_distance_dist|].
  apply dist_rev_mono, Hle.
Qed.

(** ** [explain_dynprog] on any trace matrix *)

(** X11 (length of the result).  Whatever the trace matrix holds, a list
    that [explain_dynprog] returns prints an alignment of [x] and [y]; it
    has at least as many items as the longer sequence and at most as many
    as both together. *)
Theorem explain_dynprog_length (str : A -> string) (x y : list A)
    (M P : matrix) (L : list string) :
  explain_dynprog str x y M P = Ok L ->
  (exists s, aligns s x y /\ L = map (format_op str) s) /\
  length x <= length L /\ length y <= length L /\
  length L <= length x + length y.
Proof.
  rewrite explain_dynprog_edit_script. intros HL.
  destruct (edit_script x y M P) as [s|e] eqn:Hs; [|discriminate].
  injection HL as <-. pose proof (edit_script_aligns x y M P s Hs) as Hal.
  split; [eauto|]. rewrite length_map. apply aligns_length, Hal.
Qed.

(** X12 (an empty sequence).  With an empty source [explain_dynprog]
    returns one insert per element of the target, in order, and with an
    empty target one delete per element of the source; the matrices are not
    read. *)
Theorem explain_dynprog_empty (str : A -> string) (x y : list A)
    (M P : matrix) :
  explain_dynprog str [] y M P =
    Ok (map (fun c => "insert " +:+ str c) y) /\
  explain_dynprog str x [] M P =
    Ok (map (fun c => "delete " +:+ str c) x).
Proof.
  split; unfold explain_dynprog; apply explain_Ok.
  - exists 0, (length y), []. split; [simp backtrack; reflexivity|].
    rewrite firstn_all, app_nil_r. reflexivity.
  - exists (length x), 0, []. split.
    + simpl length. destruct (length x); simp backtrack; reflexivity.
    + rewrite firstn_all, app_nil_r. reflexivity.
Qed.

(** X13 (a missing cell).  When both sequences are non-empty and the trace
    matrix has no cell [(nx, ny)], [explain_dynprog] fails with
    [IndexError] on its first read. *)
Theorem explain_dynprog_missing_cell (str : A -> string) (x y : list A)
    (M P : matrix) :
  x <> [] -> y <> [] -> cell P (length x) (length y) = None ->
  explain_dynprog str x y M P = Err IndexError.
Proof.
  intros Hx Hy Hcell. unfold explain_dynprog, explain. cbv zeta.
  destruct (length x) as [|i] eqn:Hlx; [destruct x; [congruence | discriminate]|].
  destruct (length y) as [|j] eqn:Hly; [destruct y; [congruence | discriminate]|].
  rewrite backtrack_S_S. unfold backtrack_step.
  rewrite mget_cell, Hcell. reflexivity.
Qed.

(** In exact arithmetic: when a substitution is dearer than a deletion and
    an insertion, the script has none. *)
Lemma edit_script_never_substitutes_exact (cm : CostModel (A := A))
    (x y : list A) :
  substitution_dearer cm ->
  exists M P s,
    dynprog cm x y = Ok (M, P) /\
    edit_script x y M P = Ok s /\
    no_substitution s /\
    replay_copy s x = Some y.
Proof.
  intros Hdear.
  destruct (dynprog_cells cm x y) as (M & P & Hdyn & _ & HshP & Hcells).
  destruct (explain_total Match Insert Delete x y P) as [s Hs].
  { intros i j Hi Hj. apply (shape_cell _ _ _ _ _ HshP); lia. }
  assert (Hns : no_substitution s).
  { apply (edit_script_no_substitution cm x y M P s Hdear); [|exact Hs].
    intros i j Hi Hj. apply mget_Ok, Hcells; assumption. }
  exists M, P, s. split; [exact Hdyn|]. split; [exact Hs|].
  split; [exact Hns|].
  apply (edit_script_replay x y M P s Hs), Hns.
Qed.

(** ** [lev] and [levenshtein] *)

(** X15 (what [lev] returns).  With a non-empty first sequence [lev]
    returns the cost of inserting the second one, whatever the first
    holds; with an empty first and a non-empty second sequence it returns
    0; on two empty sequences it returns nothing, at any recursion limit.
    The deletion and match costs never enter the result. *)
Theorem lev_behaviour (cm : CostModel (A := A)) (a b : list A) (depth : nat) :
  (a <> [] -> lev (S depth) cm a b = Ok (sum (map (insert_cost cm) b))) /\
  (a = [] -> b <> [] -> lev (S depth) cm a b = Ok 0%Z) /\
  (a = [] -> b = [] -> lev depth cm a b = Err RecursionError).
Proof.
  split; [|split].
  - apply lev_nonempty.
  - intros ->. apply lev_empty_nonempty.
  - intros -> ->. apply lev_empty_empty.
Qed.

(** X16 (symmetry).  [levenshtein] gives the same number in both
    directions. *)
Theorem levenshtein_symmetric (seq1 seq2 : list A) :
  levenshtein seq1 seq2 = levenshtein seq2 seq1.
Proof.
  rewrite !levenshtein_dist. unfold dist. f_equal.
  apply dist_rev_exchange; try reflexivity.
  intros cx cy. simpl.
  destruct (decide (cx = cy)); destruct (decide (cy = cx)); congruence.
Qed.

(** X17 (zero).  [levenshtein] returns 0 exactly on equal sequences. *)
Theorem levenshtein_zero_iff (seq1 seq2 : list A) :
  levenshtein seq1 seq2 = Ok 0%Z <-> seq1 = seq2.
Proof.
  rewrite levenshtein_dist. unfold dist. split.
  - intros Hz. injection Hz as Hz. apply unit_dist_rev_zero in Hz.
    rewrite <- (rev_involutive seq1), <- (rev_involutive seq2), Hz.
    reflexivity.
  - intros ->. f_equal. apply dist_rev_diag.
    + repeat split; intros; simpl; try destruct (decide _); lia.
    + intros c. simpl. destruct (decide (c = c)); congruence.
Qed.

(** X18 (bounds).  The number [levenshtein] returns is at least the
    difference of the two lengths and at most the larger of them. *)
Theorem levenshtein_bounds (seq1 seq2 : list A) :
  exists d,
    levenshtein seq1 seq2 = Ok d /\
    (Z.abs (Z.of_nat (length seq1) - Z.of_nat (length seq2)) <= d)%Z /\
    (d <= Z.max (Z.of_nat (length seq1)) (Z.of_nat (length seq2)))%Z.
Proof.
  exists (dist unit_model seq1 seq2). split; [apply levenshtein_dist|].
  pose proof (unit_dist_rev_bounds (rev seq1) (rev seq2)) as Hb.
  cbv zeta in Hb. rewrite !length_rev in Hb. unfold dist. lia.
Qed.

End MoreDynprog.

(** ** The table [dict_op] *)

(** X19 (names and codes).  The table [dict_op] maps each operation name
    to the code [dynprog] writes and each code back to its name: looking up
    what a key gave returns the key. *)
Theorem dict_op_round_trip (k v : pyval) :
  dict_get dict_op_table k = Some v ->
  dict_get dict_op_table v = Some k /\
  (forall o, k = op_key o -> v = PInt (dict_op o)).
Proof.
  unfold dict_op_table. simpl.
  repeat (destruct (decide _) as [->|?];
          [intros Hv; injection Hv as <-;
           split; [reflexivity | intros [] Ho; (discriminate || reflexivity)]|]).
  discriminate.
Qed.

(** ** A sequence against itself *)

Section SelfAlignment.

Context {A : Type} `{EqDecision A}.
Context (cm : CostModel (A := A)).
Hypothesis Hnn : nonneg_costs cm.
Hypothesis Hfree : forall c, match_cost cm c c = 0%Z.

Lemma trace_diag (a : list A) (c : A) :
  trace cm (a ++ [c]) (a ++ [c]) = 0%Z.
Proof.
  rewrite trace_snoc_snoc.
  set (cM := (dist cm a a + match_cost cm c c)%Z).
  set (cI := (dist cm (a ++ [c]) a + insert_cost cm c)%Z).
  set (cD := (dist cm a (a ++ [c]) + delete_cost cm c)%Z).
  pose proof (argmin3_cases cM cI cD) as Hcases. cbv zeta in Hcases.
  assert (HM : cM = 0%Z).
  { unfold cM, dist. rewrite dist_rev_diag, Hfree by assumption. reflexivity. }
  assert (HI : (0 <= cI)%Z).
  { unfold cI, dist. pose proof (dist_rev_nonneg cm (rev (a ++ [c])) (rev a) Hnn).
    destruct Hnn as (Hi & _). specialize (Hi c). lia. }
  assert (HD : (0 <= cD)%Z).
  { unfold cD, dist. pose proof (dist_rev_nonneg cm (rev a) (rev (a ++ [c])) Hnn).
    destruct Hnn as (_ & Hd & _). specialize (Hd c). lia. }
  lia.
Qed.

(** On the trace matrix of the recurrence the walk from a diagonal cell
    goes up the diagonal. *)
Lemma backtrack_diag (x : list A) (P : matrix) (n : nat) (L : list EditOp) :
  (forall i j, i <= length x -> j <= length x ->
     cell P i j = Some (trace cm (take i x) (take j x))) ->
  n <= length x ->
  backtrack Match Insert Delete x x P n n L =
  Ok (0, 0, L ++ map (fun c => Match c c) (rev (take n x))).
Proof.
  intros Hcells. revert L. induction n as [|i IH]; intros L Hn.
  - simp backtrack. rewrite take_0. simpl. rewrite app_nil_r. reflexivity.
  - destruct (take_snoc x i) as (c & Hc & Htake); [lia|].
    rewrite backtrack_S_S. unfold backtrack_step.
    rewrite (proj2 (mget_Ok _ _ _ _) (Hcells (S i) (S i) Hn Hn)).
    rewrite Htake, trace_diag. cbn [bind].
    rewrite decide_True by reflexivity.
    rewrite (index_lookup _ _ _ Hc). cbn [bind].
    rewrite IH by lia. rewrite rev_unit. simpl.
    rewrite <- app_assoc. reflexivity.
Qed.

End SelfAlignment.

Section SelfScript.

Context {A : Type} `{EqDecision A}.

(** In exact arithmetic: the script of a sequence against itself. *)
Lemma explain_dynprog_identity_exact (cm : CostModel (A := A)) (str : A -> string)
    (x : list A) :
  nonneg_costs cm -> (forall c, match_cost cm c c = 0%Z) ->
  exists M P,
    dynprog cm x x = Ok (M, P) /\
    explain_dynprog str x x M P =
      Ok (map (fun c => " match " +:+ str c +:+ " and " +:+ str c +:+ " ") x).
Proof.
  intros Hnn Hfree.
  destruct (dynprog_cells cm x x) as (M & P & Hdyn & _ & _ & Hcells).
  exists M, P. split; [exact Hdyn|].
  rewrite explain_dynprog_edit_script.
  assert (Hs : edit_script x x M P = Ok (map (fun c => Match c c) x)).
  { unfold edit_script. apply explain_Ok. eexists 0, 0, _. split.
    - apply (backtrack_diag cm Hnn Hfree x P (length x) []); [|lia].
      intros i j Hi Hj. apply mget_Ok, Hcells; assumption.
    - rewrite take_0, firstn_all. simpl.
      rewrite <- map_rev, rev_involutive. reflexivity. }
  rewrite Hs, map_map. reflexivity.
Qed.

End SelfScript.

(** ** Instances of the further properties *)

Lemma default_model_nonneg : nonneg_costs (default_model (A := ascii)).
Proof.
  repeat split; intros; simpl; try destruct (decide _); lia.
Defined.

Lemma default_model_free_match (c : ascii) :
  match_cost default_model c c = 0%Z.
Proof. simpl. destruct (decide (c = c)); congruence. Defined.

Lemma default_model_substitution_dearer :
  substitution_dearer (default_model (A := ascii)).
Proof.
  intros cx cy Hne. simpl. destruct (decide (cx = cy)); [contradiction | lia].
Defined.

Lemma unit_le_default : costs_le (unit_model (A := ascii)) default_model.
Proof.
  repeat split; intros; simpl; try destruct (decide _); lia.
Defined.

Lemma dynprog_trace_boundary_sunda_satu :
  3 <= length sunda /\ 0 <= length satu /\ (3 = 0 \/ 0 = 0) /\
  exists M P p,
    dynprog default_model sunda satu = Ok (M, P) /\ mget P 3 0 = Ok p /\
    p = 2%Z.
Proof.
  assert (H1 : 3 <= length sunda) by (simpl; lia).
  assert (H2 : 0 <= length satu) by (simpl; lia).
  assert (H3 : 3 = 0 \/ 0 = 0) by (right; reflexivity).
  split; [exact H1|]. split; [exact H2|]. split; [exact H3|].
  exact (dynprog_trace_boundary default_model sunda satu 3 0 H1 H2 H3).
Defined.

Lemma dynprog_trace_codes_sunda_satu :
  5 <= length sunda /\ 4 <= length satu /\
  exists M P p,
    dynprog default_model sunda satu = Ok (M, P) /\ mget P 5 4 = Ok p /\
    (p = 0 \/ p = 1 \/ p = 2)%Z.
Proof.
  assert (H1 : 5 <= length sunda) by (simpl; lia).
  assert (H2 : 4 <= length satu) by (simpl; lia).
  split; [exact H1|]. split; [exact H2|].
  exact (dynprog_trace_codes default_model sunda satu 5 4 H1 H2).
Defined.

Lemma explain_dynprog_length_a_a :
  explain_dynprog str_char word_a word_a (zeros 2 2) (zeros 3 3) =
    Ok [" match a and a "]%string /\
  (exists s, aligns s word_a word_a /\
     [" match a and a "]%string = map (format_op str_char) s) /\
  length word_a <= 1 /\ length word_a <= 1 /\
  1 <= length word_a + length word_a.
Proof.
  assert (H : explain_dynprog str_char word_a word_a (zeros 2 2) (zeros 3 3) =
              Ok [" match a and a "]%string) by reflexivity.
  split; [exact H|].
  exact (explain_dynprog_length str_char word_a word_a (zeros 2 2) (zeros 3 3)
           _ H).
Defined.

Lemma explain_dynprog_missing_cell_a_a :
  word_a <> [] /\ word_a <> [] /\
  cell [] (length word_a) (length word_a) = None /\
  explain_dynprog str_char word_a word_a (zeros 2 2) [] = Err IndexError.
Proof.
  assert (H1 : word_a <> []) by discriminate.
  assert (H2 : cell [] (length word_a) (length word_a) = None) by reflexivity.
  split; [exact H1|]. split; [exact H1|]. split; [exact H2|].
  exact (explain_dynprog_missing_cell str_char word_a word_a (zeros 2 2) []
           H1 H1 H2).
Defined.

Lemma lev_behaviour_a_satu :
  word_a <> [] /\ lev 1 default_model word_a satu = Ok 4%Z.
Proof.
  assert (H1 : word_a <> []) by discriminate.
  split; [exact H1|].
  exact (proj1 (lev_behaviour default_model word_a satu 0) H1).
Defined.

Lemma levenshtein_zero_iff_sunda :
  sunda = sunda /\ levenshtein sunda sunda = Ok 0%Z.
Proof.
  split; [reflexivity|].
  exact (proj2 (levenshtein_zero_iff sunda sunda) eq_refl).
Defined.

Lemma dict_op_round_trip_delete :
  dict_get dict_op_table (PStr "delete") = Some (PInt 2) /\
  dict_get dict_op_table (PInt 2) = Some (PStr "delete") /\
  (forall o, PStr "delete" = op_key o -> PInt 2 = PInt (dict_op o)).
Proof.
  assert (H : dict_get dict_op_table (PStr "delete") = Some (PInt 2))
    by reflexivity.
  split; [exact H|].
  exact (dict_op_round_trip (PStr "delete") (PInt 2) H).
Defined.


(** * [dynprog] with NumPy's numbers *)

(** ** Where the machine numbers are exact *)

Lemma wrap_int64_exact (z : Z) :
  (- 2 ^ 63 <= z < 2 ^ 63)%Z -> wrap_int64 z = z.
Proof.
  intros Hz. unfold wrap_int64. rewrite Z.mod_small by lia. lia.
Qed.

Lemma round_float64_exact (z : Z) :
  (Z.abs z < 2 ^ 53)%Z -> round_float64 z = z.
Proof.
  intros Hz. unfold round_float64.
  destruct (Z.ltb_spec (Z.abs z) (2 ^ 53)); [reflexivity | lia].
Qed.

Lemma float_add_int_exact (f c : Z) :
  (Z.abs c < 2 ^ 53)%Z -> (Z.abs (f + c) < 2 ^ 53)%Z ->
  float_add_int f c = (f + c)%Z.
Proof.
  intros Hc Hs. unfold float_add_int.
  rewrite (round_float64_exact c Hc). apply round_float64_exact, Hs.
Qed.

(** A cumulative sum whose partial sums stay below 2^53 neither wraps nor
    rounds. *)
Lemma np_cumsum_from_exact (B : Z) (l : list Z) (acc : Z) :
  (forall v, v ∈ l -> (Z.abs v <= B)%Z) ->
  (Z.abs acc + Z.of_nat (length l) * B < 2 ^ 53)%Z ->
  map round_float64 (np_cumsum_from acc l) = cumsum_from acc l.
Proof.
  revert acc. induction l as [|v l IH]; intros acc Hl Hacc; [reflexivity|].
  assert (Hv : (Z.abs v <= B)%Z) by (apply Hl; left).
  simpl length in Hacc. rewrite Nat2Z.inj_succ in Hacc.
  assert (Hs : (Z.abs (acc + v) + Z.of_nat (length l) * B < 2 ^ 53)%Z) by lia.
  assert (H0 : (0 <= Z.of_nat (length l) * B)%Z) by nia.
  simpl. rewrite wrap_int64_exact by lia.
  rewrite round_float64_exact by lia.
  f_equal. apply IH; [|exact Hs].
  intros w Hw. apply Hl. right. exact Hw.
Qed.

Lemma np_cumsum_exact (B : Z) (l : list Z) :
  (forall v, v ∈ l -> (Z.abs v <= B)%Z) ->
  (Z.of_nat (length l) * B < 2 ^ 53)%Z ->
  map round_float64 (np_cumsum l) = cumsum l.
Proof.
  intros Hl Hb. apply (np_cumsum_from_exact B); [exact Hl|]. simpl. lia.
Qed.

(** ** Loops that agree *)

Lemma for_each_seq_agree {S : Type} (I : nat -> S -> Prop)
    (body body' : nat -> S -> result S) (n a : nat) (s : S) :
  I a s ->
  (forall k t, a <= k < a + n -> I k t ->
     exists t', body k t = Ok t' /\ body' k t = Ok t' /\ I (Datatypes.S k) t') ->
  for_each (seq a n) body' s = for_each (seq a n) body s.
Proof.
  revert a s. induction n as [|n IH]; intros a s Ha Hbody; [reflexivity|].
  simpl. destruct (Hbody a s) as (t' & Hb & Hb' & Ht'); [lia | exact Ha |].
  rewrite Hb, Hb'. simpl. apply IH; [exact Ht'|].
  intros k t Hk. apply Hbody. lia.
Qed.

Lemma for_range_agree {S : Type} (I : nat -> S -> Prop)
    (body body' : nat -> S -> result S) (a b : nat) (s : S) :
  I a s ->
  (forall k t, a <= k < b -> I k t ->
     exists t', body k t = Ok t' /\ body' k t = Ok t' /\ I (Datatypes.S k) t') ->
  for_range a b body' s = for_range a b body s.
Proof.
  intros Ha Hbody. unfold for_range.
  apply (for_each_seq_agree I); [exact Ha|].
  intros k t Hk. apply Hbody. lia.
Qed.

Section MachineExact.

Context {A : Type} `{EqDecision A}.

(** ** The size of the numbers *)

Lemma dist_rev_abs_le (cm : CostModel (A := A)) (B : Z) (a b : list A) :
  (forall c, c ∈ a -> (Z.abs (delete_cost cm c) <= B)%Z) ->
  (forall c, c ∈ b -> (Z.abs (insert_cost cm c) <= B)%Z) ->
  (forall cx cy, cx ∈ a -> cy ∈ b -> (Z.abs (match_cost cm cx cy) <= B)%Z) ->
  (Z.abs (dist_rev cm a b) <= Z.of_nat (length a + length b) * B)%Z.
Proof.
  revert a b. apply (prefix_pair_ind (fun a b =>
    (forall c, c ∈ a -> (Z.abs (delete_cost cm c) <= B)%Z) ->
    (forall c, c ∈ b -> (Z.abs (insert_cost cm c) <= B)%Z) ->
    (forall cx cy, cx ∈ a -> cy ∈ b -> (Z.abs (match_cost cm cx cy) <= B)%Z) ->
    (Z.abs (dist_rev cm a b) <= Z.of_nat (length a + length b) * B)%Z)).
  - intros _ _ _. simpl. lia.
  - intros cy b IH Hd Hi Hm. rewrite dist_rev_nil_cons.
    assert (Hcy : (Z.abs (insert_cost cm cy) <= B)%Z) by (apply Hi; left).
    assert (IH' : (Z.abs (dist_rev cm [] b) <= Z.of_nat (0 + length b) * B)%Z).
    { apply IH; [exact Hd | | ]; intros; [apply Hi | apply Hm]; auto; right; auto. }
    simpl length in *. rewrite Nat2Z.inj_add, Nat2Z.inj_succ in *. lia.
  - intros cx a IH Hd Hi Hm. rewrite dist_rev_cons_nil.
    assert (Hcx : (Z.abs (delete_cost cm cx) <= B)%Z) by (apply Hd; left).
    assert (IH' : (Z.abs (dist_rev cm a []) <= Z.of_nat (length a + 0) * B)%Z).
    { apply IH; [ | exact Hi | ]; intros; [apply Hd | apply Hm]; auto; right; auto. }
    simpl length in *. rewrite !Nat2Z.inj_add, ?Nat2Z.inj_succ in *. lia.
  - intros cx a cy b IH1 IH2 IH3 Hd Hi Hm. rewrite dist_rev_cons_cons.
    assert (Hcx : (Z.abs (delete_cost cm cx) <= B)%Z) by (apply Hd; left).
    assert (Hcy : (Z.abs (insert_cost cm cy) <= B)%Z) by (apply Hi; left).
    assert (Hxy : (Z.abs (match_cost cm cx cy) <= B)%Z) by (apply Hm; left).
    assert (H1 : (Z.abs (dist_rev cm a b)
                  <= Z.of_nat (length a + length b) * B)%Z).
    { apply IH1; intros; [apply Hd | apply Hi | apply Hm]; auto; right; auto. }
    assert (H2 : (Z.abs (dist_rev cm (cx :: a) b)
                  <= Z.of_nat (length (cx :: a) + length b) * B)%Z).
    { apply IH2; intros; [apply Hd | apply Hi | apply Hm]; auto; right; auto. }
    assert (H3 : (Z.abs (dist_rev cm a (cy :: b))
                  <= Z.of_nat (length a + length (cy :: b)) * B)%Z).
    { apply IH3; intros; [apply Hd | apply Hi | apply Hm]; auto; right; auto. }
    simpl length in *.
    rewrite !Nat2Z.inj_add, ?Nat2Z.inj_succ, ?Nat2Z.inj_add in *.
    unfold min3. lia.
Qed.

Lemma elem_of_rev_take (l : list A) (i : nat) (c : A) :
  c ∈ rev (take i l) -> c ∈ l.
Proof.
  intros Hc. apply list_elem_of_In, in_rev, list_elem_of_In in Hc.
  rewrite <- (take_drop i l). apply elem_of_app. left. exact Hc.
Qed.

(** Under a bound [B] on the costs, the cell [(i, j)] of the recurrence is
    at most [(i + j) * B] in absolute value. *)
Lemma dist_take_abs_le (cm : CostModel (A := A)) (x y : list A) (B : Z)
    (i j : nat) :
  cost_bound cm x y B -> i <= length x -> j <= length y ->
  (Z.abs (dist cm (take i x) (take j y)) <= Z.of_nat (i + j) * B)%Z.
Proof.
  intros (Hd & Hi & Hm) Hix Hjy. unfold dist.
  pose proof (dist_rev_abs_le cm B (rev (take i x)) (rev (take j y))) as Hle.
  rewrite !length_rev, !length_take, !Nat.min_l in Hle by lia.
  apply Hle.
  - intros c Hc. apply Hd. exact (elem_of_rev_take _ _ _ Hc).
  - intros c Hc. apply Hi. exact (elem_of_rev_take _ _ _ Hc).
  - intros cx cy Hcx Hcy. apply Hm.
    + exact (elem_of_rev_take _ _ _ Hcx).
    + exact (elem_of_rev_take _ _ _ Hcy).
Qed.

(** ** The two readings agree in the exact range *)

Context (cm : CostModel (A := A)) (x y : list A).
Hypothesis Hrange : exact_range cm x y.

Lemma dynprog_np_cell_exact (ix iy : nat) (MP : matrix * matrix) :
  1 <= ix <= length x -> 1 <= iy <= length y ->
  filled cm x y (done_at ix iy) MP ->
  dynprog_np_cell cm x y ix iy MP = dynprog_cell cm x y ix iy MP.
Proof.
  intros Hix Hiy (HshM & HshP & Hcells). destruct MP as [M P].
  cbn [fst snd] in *.
  destruct Hrange as (B & Hbound & HB).
  destruct ix as [|i]; [lia|]. destruct iy as [|j]; [lia|].
  destruct (take_snoc x i) as (cx & Hcx & Htx); [lia|].
  destruct (take_snoc y j) as (cy & Hcy & Hty); [lia|].
  destruct (Hcells i j) as [Hm _]; [lia | lia | unfold done_at; lia |].
  destruct (Hcells (S i) j) as [Hl _]; [lia | lia | unfold done_at; lia |].
  destruct (Hcells i (S j)) as [Hu _]; [lia | lia | unfold done_at; lia |].
  pose proof (dist_take_abs_le cm x y B i j Hbound) as Bm.
  pose proof (dist_take_abs_le cm x y B (S i) j Hbound) as Bl.
  pose proof (dist_take_abs_le cm x y B i (S j) Hbound) as Bu.
  specialize (Bm ltac:(lia) ltac:(lia)). specialize (Bl ltac:(lia) ltac:(lia)).
  specialize (Bu ltac:(lia) ltac:(lia)).
  assert (Hinx : cx ∈ x) by (apply list_elem_of_lookup; eauto).
  assert (Hiny : cy ∈ y) by (apply list_elem_of_lookup; eauto).
  destruct Hbound as (Hd & Hi & Hmc).
  specialize (Hd cx Hinx). specialize (Hi cy Hiny).
  specialize (Hmc cx cy Hinx Hiny).
  rewrite !Nat2Z.inj_add, ?Nat2Z.inj_succ in *.
  assert (HB0 : (0 <= B)%Z) by lia.
  assert (Hn : (Z.of_nat (length x) * B + Z.of_nat (length y) * B < 2 ^ 53)%Z)
    by lia.
  assert (Hi' : (Z.of_nat i + 1 <= Z.of_nat (length x))%Z) by lia.
  assert (Hj' : (Z.of_nat j + 1 <= Z.of_nat (length y))%Z) by lia.
  assert (Hib : ((Z.of_nat i + 1) * B <= Z.of_nat (length x) * B)%Z) by nia.
  assert (Hjb : ((Z.of_nat j + 1) * B <= Z.of_nat (length y) * B)%Z) by nia.
  unfold dynprog_np_cell, dynprog_cell.
  replace (S i - 1) with i by lia. replace (S j - 1) with j by lia.
  rewrite (proj2 (mget_Ok _ _ _ _) Hm), (proj2 (mget_Ok _ _ _ _) Hl),
    (proj2 (mget_Ok _ _ _ _) Hu), (index_lookup _ _ _ Hcx),
    (index_lookup _ _ _ Hcy). cbn [bind].
  rewrite !float_add_int_exact by lia. reflexivity.
Qed.

Lemma dynprog_np_exact : dynprog_np cm x y = dynprog cm x y.
Proof.
  destruct (dynprog_boundary cm x y)
    as (M1 & P1 & M2 & P2 & HM1 & HP1 & HM2 & HP2 & Hb).
  destruct Hrange as (B & (Hd & Hi & Hmc) & HB).
  rewrite Nat2Z.inj_add in HB.
  assert (Hsplit : (0 <= B)%Z \/ (B < 0)%Z) by lia.
  assert (Hdel : map round_float64 (np_cumsum (map (delete_cost cm) x))
                 = cumsum (map (delete_cost cm) x)).
  { destruct x as [|c0 x'] eqn:Hx; [reflexivity|]. rewrite <- Hx in *.
    assert (Hc0 : c0 ∈ x) by (rewrite Hx; left).
    pose proof (Hd c0 Hc0).
    apply (np_cumsum_exact B).
    - intros v Hv. apply list_elem_of_In, in_map_iff in Hv as (c & <- & Hc).
      apply Hd, list_elem_of_In, Hc.
    - rewrite length_map. nia. }
  assert (Hins : map round_float64 (np_cumsum (map (insert_cost cm) y))
                 = cumsum (map (insert_cost cm) y)).
  { destruct y as [|c0 y'] eqn:Hy; [reflexivity|]. rewrite <- Hy in *.
    assert (Hc0 : c0 ∈ y) by (rewrite Hy; left).
    pose proof (Hi c0 Hc0).
    apply (np_cumsum_exact B).
    - intros v Hv. apply list_elem_of_In, in_map_iff in Hv as (c & <- & Hc).
      apply Hi, list_elem_of_In, Hc.
    - rewrite length_map. nia. }
  unfold dynprog_np, dynprog. cbv zeta. rewrite Hdel, Hins.
  rewrite HM1. cbn [bind]. rewrite HP1. cbn [bind].
  rewrite HM2. cbn [bind]. rewrite HP2. cbn [bind].
  apply (for_range_agree (fun k => filled cm x y (done_at k 1))); [exact Hb|].
  intros k t Hk Ht.
  destruct (dynprog_row_filled cm x y k t) as (t' & Hrow & Ht'); [lia | exact Ht |].
  exists t'. split; [exact Hrow|]. split; [|exact Ht'].
  rewrite <- Hrow.
  apply (for_range_agree (fun l => filled cm x y (done_at k l))); [exact Ht|].
  intros l u Hl Hu.
  destruct (dynprog_cell_filled cm x y k l u) as (u' & Hcell & Hu');
    [lia | lia | exact Hu |].
  exists u'. split; [exact Hcell|]. split; [|exact Hu'].
  rewrite dynprog_np_cell_exact by (try lia; exact Hu). exact Hcell.
Qed.

Lemma edit_distance_np_exact : edit_distance_np cm x y = edit_distance cm x y.
Proof. unfold edit_distance_np, edit_distance. rewrite dynprog_np_exact. reflexivity. Qed.

End MachineExact.

Section ExactRange.

Context {A : Type} `{EqDecision A}.

(** The exact range of two sequences contains that of any two sequences
    made of their elements and no longer than them. *)
Lemma exact_range_sub (cm : CostModel (A := A)) (x y x' y' : list A) :
  (forall c, c ∈ x' -> c ∈ x) -> (forall c, c ∈ y' -> c ∈ y) ->
  length x' <= length x -> length y' <= length y ->
  exact_range cm x y -> exact_range cm x' y'.
Proof.
  intros Hx Hy Hlx Hly (B & (Hd & Hi & Hm) & HB).
  exists (Z.max B 0). split.
  - split; [|split].
    + intros cx Hcx. specialize (Hd cx (Hx cx Hcx)). lia.
    + intros cy Hcy. specialize (Hi cy (Hy cy Hcy)). lia.
    + intros cx cy Hcx Hcy. specialize (Hm cx cy (Hx cx Hcx) (Hy cy Hcy)). lia.
  - rewrite !Nat2Z.inj_add in *.
    destruct (Z.max_spec B 0) as [[? ->] | [? ->]]; nia.
Qed.

Lemma exact_range_take (cm : CostModel (A := A)) (x y : list A) (i j : nat) :
  exact_range cm x y -> exact_range cm (take i x) (take j y).
Proof.
  apply exact_range_sub.
  - intros c Hc. rewrite <- (take_drop i x). apply elem_of_app. left. exact Hc.
  - intros c Hc. rewrite <- (take_drop j y). apply elem_of_app. left. exact Hc.
  - rewrite length_take. lia.
  - rewrite length_take. lia.
Qed.

Lemma exact_range_snoc_r (cm : CostModel (A := A)) (x y : list A) (e : A) :
  exact_range cm x (y ++ [e]) -> exact_range cm x y.
Proof.
  apply exact_range_sub; auto.
  - intros c Hc. apply elem_of_app. left. exact Hc.
  - rewrite length_app. lia.
Qed.

Lemma exact_range_snoc_l (cm : CostModel (A := A)) (x y : list A) (e : A) :
  exact_range cm (x ++ [e]) y -> exact_range cm x y.
Proof.
  apply exact_range_sub; auto.
  - intros c Hc. apply elem_of_app. left. exact Hc.
  - rewrite length_app. lia.
Qed.

End ExactRange.

(** ** The properties that depend on the numbers in [M] *)

Section MachineClaims.

Context {A : Type} `{EqDecision A}.

(** C1 (round trip), as the program has it.  For every pair of sequences
    and every cost model whose costs are integers in the exact range,
    [dynprog] returns matrices [M], [P], the backtracking over them returns
    an edit script (the operations whose printed form [explain_dynprog]
    returns), and the cost of replaying that script through the cost model,
    [match_cost] for each Match, [insert_cost] for each Insert and
    [delete_cost] for each Delete, is exactly [M[nx][ny]]. *)
Theorem roundtrip_cost (cm : CostModel (A := A)) (x y : list A) :
  exact_range cm x y ->
  exists M P s,
    dynprog_np cm x y = Ok (M, P) /\
    edit_script x y M P = Ok s /\
    (forall str, explain_dynprog str x y M P = Ok (map (format_op str) s)) /\
    mget M (length x) (length y) = Ok (script_cost cm s).
Proof.
  intros Hrange. rewrite (dynprog_np_exact cm x y Hrange).
  apply roundtrip_cost_exact.
Qed.

(** C2 (recurrence), as the program has it.  For every cost model whose
    costs are integers in the exact range, the matrix [M] that [dynprog]
    returns has [M[0][0] = 0], [M[i][0]] the sum of [delete_cost] over the
    first [i] elements of [x], [M[0][j]] the sum of [insert_cost] over the
    first [j] elements of [y], and at every inner cell the minimum of
    [M[i-1][j-1] + match_cost(x[i-1], y[j-1])],
    [M[i][j-1] + insert_cost(y[j-1])] and
    [M[i-1][j] + delete_cost(x[i-1])]. *)
Theorem dynprog_recurrence (cm : CostModel (A := A)) (x y : list A) :
  exact_range cm x y ->
  exists M P,
    dynprog_np cm x y = Ok (M, P) /\
    mget M 0 0 = Ok 0%Z /\
    (forall i, 1 <= i <= length x ->
       mget M i 0 = Ok (sum (map (delete_cost cm) (take i x)))) /\
    (forall j, 1 <= j <= length y ->
       mget M 0 j = Ok (sum (map (insert_cost cm) (take j y)))) /\
    (forall i j cx cy, x !! i = Some cx -> y !! j = Some cy ->
       exists m l u,
         mget M i j = Ok m /\ mget M (S i) j = Ok l /\ mget M i (S j) = Ok u /\
         mget M (S i) (S j) =
           Ok (Z.min (m + match_cost cm cx cy)
                 (Z.min (l + insert_cost cm cy) (u + delete_cost cm cx)))).
Proof.
  intros Hrange. rewrite (dynprog_np_exact cm x y Hrange).
  apply dynprog_recurrence_exact.
Qed.


Lemma exact_range_nil (cm : CostModel (A := A)) : exact_range cm [] [].
Proof.
  exists 0%Z. split; [|reflexivity].
  split; [|split]; intros; exfalso; eapply not_elem_of_nil; eauto.
Qed.

(** C5 (base cases), as the program has it.  The edit distance of two
    empty sequences is 0; for a cost model whose costs are integers in the
    exact range, the distance from [x] to the empty sequence is the sum of
    [delete_cost] over [x], and the distance from the empty sequence to [y]
    is the sum of [insert_cost] over [y]. *)
Theorem edit_distance_base_cases (cm : CostModel (A := A)) (x y : list A) :
  exact_range cm x [] -> exact_range cm [] y ->
  edit_distance_np cm [] [] = Ok 0%Z /\
  edit_distance_np cm x [] = Ok (sum (map (delete_cost cm) x)) /\
  edit_distance_np cm [] y = Ok (sum (map (insert_cost cm) y)).
Proof.
  intros Hx Hy.
  rewrite (edit_distance_np_exact cm [] [] (exact_range_nil cm)).
  rewrite (edit_distance_np_exact cm x [] Hx).
  rewrite (edit_distance_np_exact cm [] y Hy).
  destruct (edit_distance_base_cases_exact cm) as (H0 & H1 & H2). auto.
Qed.

(** C9 (one more target element), as the program has it.  For a cost model
    whose costs are integers in the exact range of [x] and the longer
    target, appending an element [e] to the target raises the edit distance
    by at most [insert_cost e], hence by at most the largest insertion cost
    of any alphabet that contains [e]. *)
Theorem edit_distance_append_target (cm : CostModel (A := A)) (x y : list A)
    (e : A) (alphabet : list A) :
  exact_range cm x (y ++ [e]) ->
  e ∈ alphabet ->
  exists d d',
    edit_distance_np cm x y = Ok d /\
    edit_distance_np cm x (y ++ [e]) = Ok d' /\
    (d' <= d + insert_cost cm e)%Z /\
    (d' <= d + max_insert_cost cm alphabet)%Z.
Proof.
  intros Hrange He.
  rewrite (edit_distance_np_exact cm x (y ++ [e]) Hrange).
  rewrite (edit_distance_np_exact cm x y (exact_range_snoc_r cm x y e Hrange)).
  apply edit_distance_append_target_exact, He.
Qed.

(** X3 (cells are distances of prefixes).  As the docstring of [dynprog]
    says, [M[i, j]] is the cost of matching [x[:i]] to [y[:j]]: for costs in
    the exact range, the final cell of [dynprog] run on these two
    prefixes. *)
Theorem dynprog_cell_prefix_distance (cm : CostModel (A := A)) (x y : list A)
    (i j : nat) :
  exact_range cm x y ->
  i <= length x -> j <= length y ->
  exists M P d,
    dynprog_np cm x y = Ok (M, P) /\ mget M i j = Ok d /\
    edit_distance_np cm (take i x) (take j y) = Ok d.
Proof.
  intros Hrange Hi Hj. rewrite (dynprog_np_exact cm x y Hrange).
  rewrite (edit_distance_np_exact cm _ _ (exact_range_take cm x y i j Hrange)).
  apply dynprog_cell_prefix_distance_exact; assumption.
Qed.

(** X4 (optimality).  For costs in the exact range, the script
    [explain_dynprog] walks out of the matrices of [dynprog] is an
    alignment of [x] and [y], and no alignment of [x] and [y] costs
    less. *)
Theorem edit_script_optimal (cm : CostModel (A := A)) (x y : list A)
    (s' : list EditOp) :
  exact_range cm x y ->
  aligns s' x y ->
  exists M P s,
    dynprog_np cm x y = Ok (M, P) /\
    edit_script x y M P = Ok s /\
    aligns s x y /\
    (script_cost cm s <= script_cost cm s')%Z.
Proof.
  intros Hrange Hal. rewrite (dynprog_np_exact cm x y Hrange).
  apply edit_script_optimal_exact, Hal.
Qed.

(** X5 (no negative cell).  With a cost model that has no negative cost,
    and costs in the exact range, no cell of the cost matrix of [dynprog]
    is negative. *)
Theorem dynprog_cells_nonneg (cm : CostModel (A := A)) (x y : list A)
    (i j : nat) :
  exact_range cm x y ->
  nonneg_costs cm -> i <= length x -> j <= length y ->
  exists M P d,
    dynprog_np cm x y = Ok (M, P) /\ mget M i j = Ok d /\ (0 <= d)%Z.
Proof.
  intros Hrange Hnn Hi Hj. rewrite (dynprog_np_exact cm x y Hrange).
  apply dynprog_cells_nonneg_exact; assumption.
Qed.

(** X6 (a sequence against itself).  With no negative cost, a free match
    of an element with itself and costs in the exact range, the distance
    from a sequence to itself is 0. *)
Theorem edit_distance_identity (cm : CostModel (A := A)) (x : list A) :
  exact_range cm x x ->
  nonneg_costs cm -> (forall c, match_cost cm c c = 0%Z) ->
  edit_distance_np cm x x = Ok 0%Z.
Proof.
  intros Hrange Hnn Hm. rewrite (edit_distance_np_exact cm x x Hrange).
  apply edit_distance_identity_exact; assumption.
Qed.

(** X8 (one more source element).  For costs in the exact range of the
    longer source and [y], appending an element [e] to the source raises
    the distance by at most [delete_cost e]. *)
Theorem edit_distance_append_source (cm : CostModel (A := A)) (x y : list A)
    (e : A) :
  exact_range cm (x ++ [e]) y ->
  exists d d',
    edit_distance_np cm x y = Ok d /\
    edit_distance_np cm (x ++ [e]) y = Ok d' /\
    (d' <= d + delete_cost cm e)%Z.
Proof.
  intros Hrange.
  rewrite (edit_distance_np_exact cm (x ++ [e]) y Hrange).
  rewrite (edit_distance_np_exact cm x y (exact_range_snoc_l cm x y e Hrange)).
  apply edit_distance_append_source_exact.
Qed.

(** X9 (delete all, insert all).  For costs in the exact range, the
    distance never exceeds the cost of deleting every element of the source
    and inserting every element of the target. *)
Theorem edit_distance_upper_bound (cm : CostModel (A := A)) (x y : list A) :
  exact_range cm x y ->
  exists d,
    edit_distance_np cm x y = Ok d /\
    (d <= sum (map (delete_cost cm) x) + sum (map (insert_cost cm) y))%Z.
Proof.
  intros Hrange. rewrite (edit_distance_np_exact cm x y Hrange).
  apply edit_distance_upper_bound_exact.
Qed.

(** X10 (dearer costs, larger distance).  If every cost of a model is at
    most the same cost of another, and both are in the exact range, the
    distance under the first is at most the distance under the second. *)
Theorem edit_distance_costs_monotone (cm cm' : CostModel (A := A))
    (x y : list A) :
  exact_range cm x y -> exact_range cm' x y ->
  costs_le cm cm' ->
  exists d d',
    edit_distance_np cm x y = Ok d /\ edit_distance_np cm' x y = Ok d' /\
    (d <= d')%Z.
Proof.
  intros Hrange Hrange' Hle.
  rewrite (edit_distance_np_exact cm x y Hrange).
  rewrite (edit_distance_np_exact cm' x y Hrange').
  apply edit_distance_costs_monotone_exact, Hle.
Qed.

(** X14 (no substitution).  When replacing an element costs more than
    deleting it and inserting the other, as under the default costs, and
    the costs are in the exact range, no Match of the script pairs two
    different elements, and applying the script to [x] with Match copying
    the source element gives [y]. *)
Theorem edit_script_never_substitutes (cm : CostModel (A := A))
    (x y : list A) :
  exact_range cm x y ->
  substitution_dearer cm ->
  exists M P s,
    dynprog_np cm x y = Ok (M, P) /\
    edit_script x y M P = Ok s /\
    no_substitution s /\
    replay_copy s x = Some y.
Proof.
  intros Hrange Hdear. rewrite (dynprog_np_exact cm x y Hrange).
  apply edit_script_never_substitutes_exact, Hdear.
Qed.

(** X20 (a sequence against itself).  With no negative cost, a free match
    of an element with itself and costs in the exact range, the operations
    [explain_dynprog] returns for a sequence against itself are one match
    per element. *)
Theorem explain_dynprog_identity (cm : CostModel (A := A)) (str : A -> string)
    (x : list A) :
  exact_range cm x x ->
  nonneg_costs cm -> (forall c, match_cost cm c c = 0%Z) ->
  exists M P,
    dynprog_np cm x x = Ok (M, P) /\
    explain_dynprog str x x M P =
      Ok (map (fun c => " match " +:+ str c +:+ " and " +:+ str c +:+ " ") x).
Proof.
  intros Hrange Hnn Hfree. rewrite (dynprog_np_exact cm x x Hrange).
  apply explain_dynprog_identity_exact; assumption.
Qed.

End MachineClaims.

(** ** Outside the exact range *)

(** With a deletion cost of 2^62, no cost negative, the column of "aa"
    against the empty sequence wraps around: the final cell is -2^63, and
    the script, two deletions, costs 2^63. *)
Lemma roundtrip_cost_wraps :
  nonneg_costs big_delete_model /\
  dynprog_np big_delete_model word_aa [] =
    Ok ([[0]; [2 ^ 62]; [- 2 ^ 63]], [[0]; [2]; [2]])%Z /\
  edit_script word_aa [] [[0]; [2 ^ 62]; [- 2 ^ 63]]%Z [[0]; [2]; [2]]%Z =
    Ok [Delete "a"%char; Delete "a"%char] /\
  mget [[0]; [2 ^ 62]; [- 2 ^ 63]]%Z 2 0 = Ok (- 2 ^ 63)%Z /\
  script_cost big_delete_model [Delete "a"%char; Delete "a"%char] = (2 ^ 63)%Z.
Proof.
  split.
  - repeat split; intros; simpl; try destruct (decide _); lia.
  - repeat split; vm_compute; reflexivity.
Qed.

(** There [M[2][0]] is not the sum of the deletion costs of the first two
    elements. *)
Lemma dynprog_recurrence_wraps :
  exists M P,
    dynprog_np big_delete_model word_aa [] = Ok (M, P) /\
    mget M 2 0 = Ok (- 2 ^ 63)%Z /\
    sum (map (delete_cost big_delete_model) (take 2 word_aa)) = (2 ^ 63)%Z.
Proof.
  exists [[0]; [2 ^ 62]; [- 2 ^ 63]]%Z, [[0]; [2]; [2]]%Z.
  repeat split; vm_compute; reflexivity.
Qed.

(** And the distance from "aa" to the empty sequence is not the sum of the
    deletion costs. *)
Lemma edit_distance_base_case_wraps :
  edit_distance_np big_delete_model word_aa [] = Ok (- 2 ^ 63)%Z /\
  sum (map (delete_cost big_delete_model) word_aa) = (2 ^ 63)%Z.
Proof. split; vm_compute; reflexivity. Qed.


(** With a uniform insertion cost of 2^52 + 1, no cost negative, the
    distance from the empty sequence to "aa" is 2^53 + 2 and the distance to
    "aaa" is 3 * 2^52 + 4: one more element raises it by more than its
    insertion cost, the largest there is. *)
Lemma edit_distance_append_target_rounds :
  nonneg_costs odd_insert_model /\
  exists d d',
    edit_distance_np odd_insert_model [] word_aa = Ok d /\
    edit_distance_np odd_insert_model [] (word_aa ++ ["a"%char]) = Ok d' /\
    (d + insert_cost odd_insert_model "a"%char < d')%Z /\
    (d + max_insert_cost odd_insert_model ["a"%char] < d')%Z.
Proof.
  split.
  - repeat split; intros; simpl; try destruct (decide _); lia.
  - exists (2 ^ 53 + 2)%Z, (3 * 2 ^ 52 + 4)%Z.
    repeat split; vm_compute; reflexivity.
Qed.

(** ** Instances in the exact range *)

Lemma default_model_exact_range (x y : list ascii) :
  (Z.of_nat (length x + length y) * 4 < 2 ^ 53)%Z ->
  exact_range default_model x y.
Proof.
  intros Hlen. exists 4%Z. split; [|exact Hlen].
  repeat split; intros; simpl; try destruct (decide _); lia.
Defined.

Lemma unit_model_exact_range (x y : list ascii) :
  (Z.of_nat (length x + length y) * 1 < 2 ^ 53)%Z ->
  exact_range unit_model x y.
Proof.
  intros Hlen. exists 1%Z. split; [|exact Hlen].
  repeat split; intros; simpl; try destruct (decide _); lia.
Defined.

Lemma roundtrip_cost_sunda_satu :
  exact_range default_model sunda satu /\
  exists M P s,
    dynprog_np default_model sunda satu = Ok (M, P) /\
    edit_script sunda satu M P = Ok s /\
    (forall str, explain_dynprog str sunda satu M P = Ok (map (format_op str) s)) /\
    mget M 5 4 = Ok (script_cost default_model s).
Proof.
  assert (Hr : exact_range default_model sunda satu)
    by (apply default_model_exact_range; reflexivity).
  split; [exact Hr|].
  exact (roundtrip_cost default_model sunda satu Hr).
Defined.

Lemma dynprog_recurrence_sunda_satu :
  exact_range default_model sunda satu /\
  sunda !! 4 = Some "a"%char /\ satu !! 3 = Some "u"%char /\
  exists M P,
    dynprog_np default_model sunda satu = Ok (M, P) /\
    exists m l u,
      mget M 4 3 = Ok m /\ mget M 5 3 = Ok l /\ mget M 4 4 = Ok u /\
      mget M 5 4 = Ok (Z.min (m + 4) (Z.min (l + 1) (u + 2))).
Proof.
  assert (Hr : exact_range default_model sunda satu)
    by (apply default_model_exact_range; reflexivity).
  split; [exact Hr|]. split; [reflexivity|]. split; [reflexivity|].
  destruct (dynprog_recurrence default_model sunda satu Hr)
    as (M & P & Hdyn & _ & _ & _ & Hrec).
  exists M, P. split; [exact Hdyn|].
  exact (Hrec 4 3 "a"%char "u"%char eq_refl eq_refl).
Defined.


Lemma edit_distance_base_cases_sunda_satu :
  exact_range default_model sunda [] /\ exact_range default_model [] satu /\
  edit_distance_np default_model (@nil ascii) [] = Ok 0%Z /\
  edit_distance_np default_model sunda [] = Ok 10%Z /\
  edit_distance_np default_model [] satu = Ok 4%Z.
Proof.
  assert (Hx : exact_range default_model sunda [])
    by (apply default_model_exact_range; reflexivity).
  assert (Hy : exact_range default_model [] satu)
    by (apply default_model_exact_range; reflexivity).
  split; [exact Hx|]. split; [exact Hy|].
  exact (edit_distance_base_cases default_model sunda satu Hx Hy).
Defined.

Lemma edit_distance_append_target_satu :
  exact_range default_model sunda (satu ++ ["x"%char]) /\
  "x"%char ∈ ["x"%char; "y"%char] /\
  exists d d',
    edit_distance_np default_model sunda satu = Ok d /\
    edit_distance_np default_model sunda (satu ++ ["x"%char]) = Ok d' /\
    (d' <= d + 1)%Z /\
    (d' <= d + max_insert_cost default_model ["x"%char; "y"%char])%Z.
Proof.
  assert (Hr : exact_range default_model sunda (satu ++ ["x"%char]))
    by (apply default_model_exact_range; reflexivity).
  assert (Hin : "x"%char ∈ ["x"%char; "y"%char]) by (left).
  split; [exact Hr|]. split; [exact Hin|].
  exact (edit_distance_append_target default_model sunda satu "x"%char
           ["x"%char; "y"%char] Hr Hin).
Defined.

Lemma dynprog_cell_prefix_distance_sunda_satu :
  exact_range default_model sunda satu /\
  2 <= length sunda /\ 3 <= length satu /\
  exists M P d,
    dynprog_np default_model sunda satu = Ok (M, P) /\ mget M 2 3 = Ok d /\
    edit_distance_np default_model (take 2 sunda) (take 3 satu) = Ok d.
Proof.
  assert (Hr : exact_range default_model sunda satu)
    by (apply default_model_exact_range; reflexivity).
  assert (H1 : 2 <= length sunda) by (simpl; lia).
  assert (H2 : 3 <= length satu) by (simpl; lia).
  split; [exact Hr|]. split; [exact H1|]. split; [exact H2|].
  exact (dynprog_cell_prefix_distance default_model sunda satu 2 3 Hr H1 H2).
Defined.

Lemma edit_script_optimal_a_b :
  exact_range default_model word_a word_b /\
  aligns [Delete "a"%char; Insert "b"%char] word_a word_b /\
  exists M P s,
    dynprog_np default_model word_a word_b = Ok (M, P) /\
    edit_script word_a word_b M P = Ok s /\
    aligns s word_a word_b /\
    (script_cost default_model s <=
     script_cost default_model [Delete "a"%char; Insert "b"%char])%Z.
Proof.
  assert (Hr : exact_range default_model word_a word_b)
    by (apply default_model_exact_range; reflexivity).
  assert (Hal : aligns [Delete "a"%char; Insert "b"%char] word_a word_b).
  { simpl. auto. }
  split; [exact Hr|]. split; [exact Hal|].
  exact (edit_script_optimal default_model word_a word_b _ Hr Hal).
Defined.

Lemma dynprog_cells_nonneg_sunda_satu :
  exact_range default_model sunda satu /\
  nonneg_costs (default_model (A := ascii)) /\
  5 <= length sunda /\ 4 <= length satu /\
  exists M P d,
    dynprog_np default_model sunda satu = Ok (M, P) /\ mget M 5 4 = Ok d /\
    (0 <= d)%Z.
Proof.
  assert (Hr : exact_range default_model sunda satu)
    by (apply default_model_exact_range; reflexivity).
  assert (H1 : 5 <= length sunda) by (simpl; lia).
  assert (H2 : 4 <= length satu) by (simpl; lia).
  split; [exact Hr|]. split; [exact default_model_nonneg|].
  split; [exact H1|]. split; [exact H2|].
  exact (dynprog_cells_nonneg default_model sunda satu 5 4 Hr
           default_model_nonneg H1 H2).
Defined.

Lemma edit_distance_identity_sunda :
  exact_range default_model sunda sunda /\
  nonneg_costs (default_model (A := ascii)) /\
  (forall c : ascii, match_cost default_model c c = 0%Z) /\
  edit_distance_np default_model sunda sunda = Ok 0%Z.
Proof.
  assert (Hr : exact_range default_model sunda sunda)
    by (apply default_model_exact_range; reflexivity).
  split; [exact Hr|]. split; [exact default_model_nonneg|].
  split; [exact default_model_free_match|].
  exact (edit_distance_identity default_model sunda Hr
           default_model_nonneg default_model_free_match).
Defined.

Lemma edit_distance_append_source_sunda :
  exact_range default_model (sunda ++ ["x"%char]) satu /\
  exists d d',
    edit_distance_np default_model sunda satu = Ok d /\
    edit_distance_np default_model (sunda ++ ["x"%char]) satu = Ok d' /\
    (d' <= d + 2)%Z.
Proof.
  assert (Hr : exact_range default_model (sunda ++ ["x"%char]) satu)
    by (apply default_model_exact_range; reflexivity).
  split; [exact Hr|].
  exact (edit_distance_append_source default_model sunda satu "x"%char Hr).
Defined.

Lemma edit_distance_upper_bound_sunda_satu :
  exact_range default_model sunda satu /\
  exists d,
    edit_distance_np default_model sunda satu = Ok d /\ (d <= 10 + 4)%Z.
Proof.
  assert (Hr : exact_range default_model sunda satu)
    by (apply default_model_exact_range; reflexivity).
  split; [exact Hr|].
  exact (edit_distance_upper_bound default_model sunda satu Hr).
Defined.

Lemma edit_distance_costs_monotone_sunda_satu :
  exact_range unit_model sunda satu /\ exact_range default_model sunda satu /\
  costs_le (unit_model (A := ascii)) default_model /\
  exists d d',
    edit_distance_np unit_model sunda satu = Ok d /\
    edit_distance_np default_model sunda satu = Ok d' /\
    (d <= d')%Z.
Proof.
  assert (Hu : exact_range unit_model sunda satu)
    by (apply unit_model_exact_range; reflexivity).
  assert (Hr : exact_range default_model sunda satu)
    by (apply default_model_exact_range; reflexivity).
  split; [exact Hu|]. split; [exact Hr|]. split; [exact unit_le_default|].
  exact (edit_distance_costs_monotone unit_model default_model sunda satu
           Hu Hr unit_le_default).
Defined.

Lemma edit_script_never_substitutes_a_b :
  exact_range default_model word_a word_b /\
  substitution_dearer (default_model (A := ascii)) /\
  exists M P s,
    dynprog_np default_model word_a word_b = Ok (M, P) /\
    edit_script word_a word_b M P = Ok s /\
    no_substitution s /\
    replay_copy s word_a = Some word_b.
Proof.
  assert (Hr : exact_range default_model word_a word_b)
    by (apply default_model_exact_range; reflexivity).
  split; [exact Hr|]. split; [exact default_model_substitution_dearer|].
  exact (edit_script_never_substitutes default_model word_a word_b Hr
           default_model_substitution_dearer).
Defined.

Lemma explain_dynprog_identity_sunda :
  exact_range default_model sunda sunda /\
  nonneg_costs (default_model (A := ascii)) /\
  (forall c : ascii, match_cost default_model c c = 0%Z) /\
  exists M P,
    dynprog_np default_model sunda sunda = Ok (M, P) /\
    explain_dynprog str_char sunda sunda M P =
      Ok (map (fun c => " match " +:+ str_char c +:+ " and " +:+ str_char c +:+ " ")
            sunda).
Proof.
  assert (Hr : exact_range default_model sunda sunda)
    by (apply default_model_exact_range; reflexivity).
  split; [exact Hr|]. split; [exact default_model_nonneg|].
  split; [exact default_model_free_match|].
  exact (explain_dynprog_identity default_model str_char sunda Hr
           default_model_nonneg default_model_free_match).
Defined.
